(** * TCP-WebSocket-Adapter: the framing, the two forwarders, the session
      handler and the server life cycle of [TCPWebSocketAdapter]
      (tcp_websocket_adapter/tcp_websocket_adapter.py), embedded in Rocq. *)

From Stdlib Require Import Strings.String Strings.Byte.
From Stdlib Require Import List Bool Arith Lia NArith.
Import ListNotations.

(** ** Python [bytes] / [bytearray] values and the operations the adapter
      applies to them *)

Module PyBytes.

Abbreviation bytes := (list byte).

Definition CR : byte := x0d.
Definition LF : byte := x0a.

(** The literal [b'\r\n']. *)
Definition CRLF : bytes := [CR; LF].

(** [s.startswith(prefix)]. *)
Fixpoint startswith (s prefix : bytes) {struct prefix} : bool :=
  match prefix with
  | [] => true
  | p :: ps =>
      match s with
      | [] => false
      | c :: cs => Byte.eqb p c && startswith cs ps
      end
  end.

(** [s.find(sub)]: the lowest index at which [sub] occurs in [s];
    [None] stands for Python's -1. *)
Fixpoint find (s sub : bytes) : option nat :=
  if startswith s sub then Some 0
  else match s with
       | [] => None
       | _ :: t => option_map S (find t sub)
       end.

(** [sub in s]. *)
Definition bytes_in (sub s : bytes) : bool :=
  match find s sub with Some _ => true | None => false end.

(** [s.partition(sep)]: split at the first occurrence of [sep]; when [sep]
    does not occur the result is [(s, b'', b'')].  (Python rejects an empty
    separator; the adapter only ever passes [b'\r\n'].) *)
Definition partition (s sep : bytes) : bytes * bytes * bytes :=
  match find s sep with
  | Some i => (firstn i s, sep, skipn (i + length sep) s)
  | None => (s, [], [])
  end.

(** Bytes of an ASCII literal, for writing examples. *)
Definition b (s : string) : bytes := list_byte_of_string s.

End PyBytes.
Import PyBytes.

(** ** Framer: the delimiter protocol of the TCP side *)

Module Framer.

(** [message + b'\r\n'] (line 100 of the adapter). *)
Definition encode (payload : bytes) : bytes := payload ++ CRLF.

(** The splitting loop of [_forward_tcp_to_ws] (lines 72-73) with the
    sends left out:
<<
    while b'\r\n' in buffer:
        message, _, buffer = buffer.partition(b'\r\n')
>>
    [frames] collects the successive values of [message].  [None] means
    the iteration budget [fuel] was too small. *)
Fixpoint decode_loop (fuel : nat) (buffer : bytes) (frames : list bytes)
  : option (list bytes * bytes) :=
  if bytes_in CRLF buffer then
    match fuel with
    | 0 => None
    | S fuel' =>
        let '(message, _, buffer') := partition buffer CRLF in
        decode_loop fuel' buffer' (frames ++ [message])
    end
  else Some (frames, buffer).

(** Every iteration removes at least the two delimiter bytes, so
    [length buffer] iterations are always enough ([decode_loop_total]). *)
Definition decode_opt (buffer : bytes) : option (list bytes * bytes) :=
  decode_loop (length buffer) buffer [].

Definition decode (buffer : bytes) : list bytes * bytes :=
  match decode_opt buffer with
  | Some r => r
  | None => ([], buffer)
  end.

End Framer.
Import Framer.

(** ** Exceptions and a state-and-exception monad for the coroutines *)

Module Effects.

(** The exceptions the transports hand to the adapter.
    [CancelledError] derives from [BaseException] only; the others are
    subclasses of [Exception]. *)
Inductive exn : Type :=
| CancelledError
| ConnectionClosed
| OSError (what : string)
| OtherException (name : string).

(** [isinstance(e, Exception)]. *)
Definition is_Exception (e : exn) : bool :=
  match e with
  | CancelledError => false
  | _ => true
  end.

Inductive outcome (A : Type) : Type :=
| Ok (a : A)
| Err (e : exn).
Arguments Ok {A} a.
Arguments Err {A} e.

(** A coroutine run from a state [St]: [None] when the iteration budget of
    one of its loops is exhausted or it would wait forever, otherwise the
    value returned or exception raised, with the state it leaves. *)
Definition M (St A : Type) : Type := St -> option (outcome A * St).

Definition ret {St A} (a : A) : M St A := fun s => Some (Ok a, s).

Definition raise {St A} (e : exn) : M St A := fun s => Some (Err e, s).

Definition stuck {St A} : M St A := fun _ => None.

Definition bind {St A B} (m : M St A) (k : A -> M St B) : M St B :=
  fun s =>
    match m s with
    | Some (Ok a, s') => k a s'
    | Some (Err e, s') => Some (Err e, s')
    | None => None
    end.

(** [try: body except ...: handler]; [handler e = None] when no [except]
    clause matches [e]. *)
Definition try_except {St A} (body : M St A) (handler : exn -> option (M St A))
  : M St A :=
  fun s =>
    match body s with
    | Some (Err e, s') =>
        match handler e with
        | Some h => h s'
        | None => Some (Err e, s')
        end
    | r => r
    end.

(** [try: body finally: final]: [final] runs on every way out of [body];
    an exception raised by [final] replaces the outcome of [body]. *)
Definition try_finally {St A} (body : M St A) (final : M St unit) : M St A :=
  fun s =>
    match body s with
    | Some (r, s') =>
        match final s' with
        | Some (Ok _, s'') => Some (r, s'')
        | Some (Err e, s'') => Some (Err e, s'')
        | None => None
        end
    | None => None
    end.

(** Run [body] with a loop budget computed from the current state. *)
Definition with_fuel {St A} (budget : St -> nat) (body : nat -> M St A)
  : M St A :=
  fun s => body (budget s) s.

(** [m] always has an outcome. *)
Definition total {St A} (m : M St A) : Prop :=
  forall s, exists r s', m s = Some (r, s').

(** Every run of [m] relates the state it starts from to the state it
    leaves by [R]. *)
Definition respects {St} (R : St -> St -> Prop) {A} (m : M St A) : Prop :=
  forall s r s', m s = Some (r, s') -> R s s'.

Declare Scope monad_scope.
Delimit Scope monad_scope with monad.
Notation "x <- m ;; k" := (bind m (fun x => k))
  (at level 61, m at next level, right associativity) : monad_scope.
Notation "m ;; k" := (bind m (fun _ => k))
  (at level 61, right associativity) : monad_scope.

End Effects.
Import Effects.
Open Scope monad_scope.

(** ** Python [str] and its default [encode()] *)

Module PyStr.

(** A [str] is a sequence of code points. *)
Abbreviation str := (list N).

Definition byte_of_N (n : N) : byte :=
  match Byte.of_N n with
  | Some x => x
  | None => x00
  end.

(** UTF-8 for one code point, as [str.encode()] (encoding 'utf-8', errors
    'strict') produces it; [None] where Python raises [UnicodeEncodeError]
    (surrogates U+D800..U+DFFF). *)
Definition utf8_of_code_point (cp : N) : option bytes :=
  if (cp <? 0x80)%N then
    Some [byte_of_N cp]
  else if (cp <? 0x800)%N then
    Some [byte_of_N (N.lor 0xC0 (N.shiftr cp 6));
          byte_of_N (N.lor 0x80 (N.land cp 0x3F))]
  else if (cp <? 0x10000)%N then
    if ((0xD800 <=? cp) && (cp <=? 0xDFFF))%N then None
    else
      Some [byte_of_N (N.lor 0xE0 (N.shiftr cp 12));
            byte_of_N (N.lor 0x80 (N.land (N.shiftr cp 6) 0x3F));
            byte_of_N (N.lor 0x80 (N.land cp 0x3F))]
  else if (cp <=? 0x10FFFF)%N then
    Some [byte_of_N (N.lor 0xF0 (N.shiftr cp 18));
          byte_of_N (N.lor 0x80 (N.land (N.shiftr cp 12) 0x3F));
          byte_of_N (N.lor 0x80 (N.land (N.shiftr cp 6) 0x3F));
          byte_of_N (N.lor 0x80 (N.land cp 0x3F))]
  else None.

(** [s.encode()]. *)
Fixpoint encode (s : str) : outcome bytes :=
  match s with
  | [] => Ok []
  | cp :: s' =>
      match utf8_of_code_point cp, encode s' with
      | Some x, Ok y => Ok (x ++ y)
      | None, _ => Err (OtherException "UnicodeEncodeError")
      | _, Err e => Err e
      end
  end.

(** A Unicode scalar value: what a WebSocket text frame can carry. *)
Definition is_scalar_value (cp : N) : bool :=
  ((cp <? 0xD800) || ((0xDFFF <? cp) && (cp <=? 0x10FFFF)))%N.

(** The [str] of an ASCII literal, for writing examples. *)
Definition of_ascii (s : string) : str :=
  map Byte.to_N (list_byte_of_string s).

End PyStr.
Import PyStr.

(** ** The adapter object *)

(** The attributes [__init__] sets.  [_ws_server] and
    [_ws_server_runner_task] are references to a server and a task of the
    event loop ([None] is Python's [None]). *)
Record adapter : Type := mkAdapter {
  tcp_host : string;
  tcp_port : N;
  ws_host : string;
  ws_port : N;
  buffer_size : N;
  _ws_server : option nat;
  _ws_server_runner_task : option nat
}.

(** [TCPWebSocketAdapter(tcp_host, tcp_port, ws_host, ws_port, buffer_size)]. *)
Definition __init__ (tcp_host : string) (tcp_port : N) (ws_host : string)
    (ws_port buffer_size : N) : adapter :=
  mkAdapter tcp_host tcp_port ws_host ws_port buffer_size None None.

(** [self._ws_server = s]. *)
Definition set__ws_server (s : option nat) (a : adapter) : adapter :=
  mkAdapter (tcp_host a) (tcp_port a) (ws_host a) (ws_port a) (buffer_size a)
            s (_ws_server_runner_task a).

(** [self._ws_server_runner_task = t]. *)
Definition set__ws_server_runner_task (t : option nat) (a : adapter)
  : adapter :=
  mkAdapter (tcp_host a) (tcp_port a) (ws_host a) (ws_port a) (buffer_size a)
            (_ws_server a) t.

(** ** One session: the two forwarders and the connection handler *)

Module Session.

Inductive level : Type := INFO | WARNING | ERROR.

(** A message received from the WebSocket: [str] for a text frame, [bytes]
    for a binary frame. *)
Inductive ws_message : Type :=
| Text (s : str)
| Binary (data : bytes).

Inductive forwarder : Type := TcpToWs | WsToTcp.

(** What a session does to the outside, in the order it does it.  The
    text of a log record is the constant part of the f-string; the bytes
    or the exception formatted into it are kept beside it. *)
Inductive event : Type :=
| Log (lvl : level) (text : string)
| LogRepr (lvl : level) (text : string) (payload : bytes)
| LogExn (lvl : level) (text : string) (e : exn)
| OpenConnection (host : string) (port : N)
| CreateTask (which : forwarder)
| ReaderRead (n : N)
| WebsocketSend (message : bytes)
| WebsocketNext
| WriterWrite (data : bytes)
| WriterDrain
| WriterClose
| WriterWaitClosed.

(** The environment of one session: how the transports answer each call,
    and the record of the calls made so far.
    - [dial]: the outcome of [asyncio.open_connection];
    - [reads]: the answers to the successive [reader.read] calls; a
      reader whose script is used up is at end of file and answers [b''];
    - [sends]: the exception raised by each successive [websocket.send],
      if any; sends beyond the script succeed;
    - [incoming]: what the WebSocket iterator yields; when the script is
      used up the iteration ends;
    - [drains], [wait_closed]: the exception raised by each
      [writer.drain()] and by [writer.wait_closed()], if any;
    - [cancel_gather]: the handler task is cancelled while it waits in
      [asyncio.gather];
    - [tcp_task_first]: when both forwarder tasks end with an exception,
      the TCP-to-WS one ends first. *)
Record world : Type := mkWorld {
  dial : option exn;
  reads : list (outcome bytes);
  sends : list (option exn);
  incoming : list (outcome ws_message);
  drains : list (option exn);
  wait_closed : option exn;
  cancel_gather : bool;
  tcp_task_first : bool;
  trace : list event
}.

Definition set_reads (l : list (outcome bytes)) (w : world) : world :=
  mkWorld (dial w) l (sends w) (incoming w) (drains w) (wait_closed w)
          (cancel_gather w) (tcp_task_first w) (trace w).

Definition set_sends (l : list (option exn)) (w : world) : world :=
  mkWorld (dial w) (reads w) l (incoming w) (drains w) (wait_closed w)
          (cancel_gather w) (tcp_task_first w) (trace w).

Definition set_incoming (l : list (outcome ws_message)) (w : world) : world :=
  mkWorld (dial w) (reads w) (sends w) l (drains w) (wait_closed w)
          (cancel_gather w) (tcp_task_first w) (trace w).

Definition set_drains (l : list (option exn)) (w : world) : world :=
  mkWorld (dial w) (reads w) (sends w) (incoming w) l (wait_closed w)
          (cancel_gather w) (tcp_task_first w) (trace w).

Definition record (e : event) (w : world) : world :=
  mkWorld (dial w) (reads w) (sends w) (incoming w) (drains w) (wait_closed w)
          (cancel_gather w) (tcp_task_first w) (trace w ++ [e]).

Definition answer {A} (r : option exn) (a : A) (w : world)
  : option (outcome A * world) :=
  match r with
  | None => Some (Ok a, w)
  | Some e => Some (Err e, w)
  end.

(** *** The calls into [logging], [asyncio] and [websockets] *)

Definition logging_info (text : string) : M world unit :=
  fun w => Some (Ok tt, record (Log INFO text) w).

Definition logging_warning (text : string) : M world unit :=
  fun w => Some (Ok tt, record (Log WARNING text) w).

(** [logging.error(f"...: {e}")]. *)
Definition logging_error (text : string) (e : exn) : M world unit :=
  fun w => Some (Ok tt, record (LogExn ERROR text e) w).

Definition logging_info_repr (text : string) (payload : bytes) : M world unit :=
  fun w => Some (Ok tt, record (LogRepr INFO text payload) w).

(** [await asyncio.open_connection(host, port)]. *)
Definition open_connection (host : string) (port : N) : M world unit :=
  fun w => answer (dial w) tt (record (OpenConnection host port) w).

(** [asyncio.create_task(...)]. *)
Definition create_task (which : forwarder) : M world unit :=
  fun w => Some (Ok tt, record (CreateTask which) w).

(** [await reader.read(n)]. *)
Definition reader_read (n : N) : M world bytes :=
  fun w =>
    let w' := record (ReaderRead n) w in
    match reads w with
    | [] => Some (Ok [], w')
    | Ok data :: rest => Some (Ok data, set_reads rest w')
    | Err e :: rest => Some (Err e, set_reads rest w')
    end.

(** [await websocket.send(message)]. *)
Definition websocket_send (message : bytes) : M world unit :=
  fun w =>
    let w' := record (WebsocketSend message) w in
    match sends w with
    | [] => Some (Ok tt, w')
    | r :: rest => answer r tt (set_sends rest w')
    end.

(** One step of [async for message in websocket]: [None] when the
    iteration is over. *)
Definition websocket_next : M world (option ws_message) :=
  fun w =>
    let w' := record WebsocketNext w in
    match incoming w with
    | [] => Some (Ok None, w')
    | Ok message :: rest => Some (Ok (Some message), set_incoming rest w')
    | Err e :: rest => Some (Err e, set_incoming rest w')
    end.

(** [writer.write(data)]. *)
Definition writer_write (data : bytes) : M world unit :=
  fun w => Some (Ok tt, record (WriterWrite data) w).

(** [await writer.drain()]. *)
Definition writer_drain : M world unit :=
  fun w =>
    let w' := record WriterDrain w in
    match drains w with
    | [] => Some (Ok tt, w')
    | r :: rest => answer r tt (set_drains rest w')
    end.

(** [writer.close()]. *)
Definition writer_close : M world unit :=
  fun w => Some (Ok tt, record WriterClose w).

(** [await writer.wait_closed()]. *)
Definition writer_wait_closed : M world unit :=
  fun w => answer (wait_closed w) tt (record WriterWaitClosed w).

Definition lift {A} (r : outcome A) : M world A :=
  fun w => Some (r, w).

(** *** [_forward_tcp_to_ws] *)

(** Lines 72-79: the inner [while b'\r\n' in buffer] loop.  Its [break]
    leaves this loop only; the value is [buffer] as the loop leaves it. *)
Fixpoint send_frames (fuel : nat) (buffer : bytes) : M world bytes :=
  if bytes_in CRLF buffer then
    match fuel with
    | 0 => stuck
    | S fuel' =>
        let '(message, _, buffer) := partition buffer CRLF in
        logging_info_repr "TCP -> WS: " message ;;
        sent <- try_except
                  (websocket_send message ;; ret true)
                  (fun e =>
                     match e with
                     | ConnectionClosed =>
                         Some (logging_warning
                                 "WebSocket client disconnected during forwarding"
                               ;; ret false)
                     | _ => None
                     end) ;;
        if sent : bool then send_frames fuel' buffer else ret buffer
    end
  else ret buffer.

(** Lines 65-79: the [while True] loop. *)
Fixpoint read_loop (self : adapter) (fuel : nat) (buffer : bytes)
  : M world unit :=
  match fuel with
  | 0 => stuck
  | S fuel' =>
      data <- reader_read (buffer_size self) ;;
      match data with
      | [] => logging_info "TCP connection closed by peer"
      | _ :: _ =>
          let buffer := buffer ++ data in
          buffer <- send_frames (List.length buffer) buffer ;;
          read_loop self fuel' buffer
      end
  end.

Definition _forward_tcp_to_ws (self : adapter) : M world unit :=
  let buffer := [] in
  try_finally
    (try_except
       (logging_info "Started forwarding from TCP to WS" ;;
        with_fuel (fun w => S (List.length (reads w)))
                  (fun fuel => read_loop self fuel buffer))
       (fun e =>
          match e with
          | CancelledError | ConnectionClosed =>
              Some (logging_warning "Error during TCP to WebSocket forwarding")
          | _ => None
          end))
    (logging_info "TCP connection handler exited").

(** *** [_forward_ws_to_tcp] *)

(** Lines 96-101: the [async for message in websocket] loop. *)
Fixpoint receive_loop (fuel : nat) : M world unit :=
  match fuel with
  | 0 => stuck
  | S fuel' =>
      next <- websocket_next ;;
      match next with
      | None => ret tt
      | Some message =>
          message <- match message with
                     | Text s => lift (PyStr.encode s)
                     | Binary data => ret data
                     end ;;
          logging_info_repr "WS -> TCP: " message ;;
          writer_write (message ++ CRLF) ;;
          writer_drain ;;
          receive_loop fuel'
      end
  end.

Definition _forward_ws_to_tcp (self : adapter) : M world unit :=
  try_finally
    (try_except
       (logging_info "Started forwarding from WS to TCP" ;;
        with_fuel (fun w => S (List.length (incoming w))) receive_loop)
       (fun e =>
          match e with
          | CancelledError | ConnectionClosed =>
              Some (logging_warning "Error during WebSocket to TCP forwarding")
          | _ => None
          end))
    (logging_info "WebSocket connection handler exited" ;;
     writer_close ;;
     writer_wait_closed).

(** *** [_handle_ws_connection] *)

(** [await asyncio.gather(t1, t2)] on two tasks already created.  The two
    tasks work on disjoint parts of the environment, so the calls of each
    are the same under every interleaving; the record lists those of [t1]
    before those of [t2].  Both tasks run to their end whatever the other
    does; the first exception to occur is the one [gather] raises.
    When [gather] raises, the handler resumes while the other task may
    still be running: the record puts all calls of both tasks before what
    the handler does next, so it gives the order of the calls of one
    task, and of the events of the handler, not the order between a
    forwarder's calls and the handler's events. *)
Definition gather (t1 t2 : M world unit) : M world unit :=
  fun w =>
    match t1 w with
    | None => None
    | Some (r1, w1) =>
        match t2 w1 with
        | None => None
        | Some (r2, w2) =>
            if cancel_gather w2 then Some (Err CancelledError, w2)
            else
              match r1, r2 with
              | Ok _, Ok _ => Some (Ok tt, w2)
              | Err e1, Ok _ => Some (Err e1, w2)
              | Ok _, Err e2 => Some (Err e2, w2)
              | Err e1, Err e2 =>
                  Some (Err (if tcp_task_first w2 then e1 else e2), w2)
              end
        end
    end.

Definition _handle_ws_connection (self : adapter) : M world unit :=
  try_finally
    (try_except
       (logging_info "New WebSocket connection established." ;;
        open_connection (tcp_host self) (tcp_port self) ;;
        create_task TcpToWs ;;
        create_task WsToTcp ;;
        gather (_forward_tcp_to_ws self) (_forward_ws_to_tcp self))
       (fun e =>
          match e with
          | CancelledError =>
              Some (logging_warning
                      "WebSocket connection task cancelled unexpectedly")
          | _ =>
              if is_Exception e
              then Some (logging_error
                           "Error in WebSocket connection handling: " e)
              else None
          end))
    (logging_info "WebSocket client disconnected").

(** *** Reading a record of calls *)

(** From [w] to [w'] the record of calls grew by events that all satisfy
    [P], and the parts of the environment that no call consumes are
    unchanged. *)
Definition evolves (P : event -> Prop) (w w' : world) : Prop :=
  (exists evs, trace w' = trace w ++ evs /\ Forall P evs) /\
  dial w' = dial w /\ wait_closed w' = wait_closed w /\
  cancel_gather w' = cancel_gather w /\ tcp_task_first w' = tcp_task_first w.

(** The calls [_forward_tcp_to_ws] can make. *)
Definition tcp_to_ws_event (e : event) : Prop :=
  match e with
  | Log _ _ | LogRepr _ _ _ | ReaderRead _ | WebsocketSend _ => True
  | _ => False
  end.

Definition same_reads (w w' : world) : Prop := reads w' = reads w.

(** The calls the body of [_forward_ws_to_tcp] can make before its
    [finally] clause. *)
Definition ws_to_tcp_event (e : event) : Prop :=
  match e with
  | Log _ _ | LogRepr _ _ _ => True
  | WebsocketNext | WriterWrite _ | WriterDrain => True
  | _ => False
  end.

(** *** Parts of the forwarders, named *)

(** The [except ConnectionClosed] clause around the send. *)
Definition send_handler (e : exn) : option (M world bool) :=
  match e with
  | ConnectionClosed =>
      Some (logging_warning "WebSocket client disconnected during forwarding"
            ;; ret false)
  | _ => None
  end.

(** The [finally] clause of [_forward_ws_to_tcp]. *)
Definition closing : M world unit :=
  logging_info "WebSocket connection handler exited" ;;
  writer_close ;;
  writer_wait_closed.

(** *** Kinds of calls, and what was written and sent *)

Definition is_transport_close (e : event) : bool :=
  match e with
  | WriterClose | WriterWaitClosed => true
  | _ => false
  end.

Definition is_exception_log (e : event) : bool :=
  match e with
  | LogExn _ _ _ => true
  | _ => false
  end.

Definition is_forwarding_io (e : event) : bool :=
  match e with
  | ReaderRead _ | WebsocketSend _ => true
  | _ => false
  end.

(** The byte strings handed to [writer.write], in order. *)
Fixpoint written (t : list event) : list bytes :=
  match t with
  | [] => []
  | WriterWrite data :: t' => data :: written t'
  | _ :: t' => written t'
  end.

(** The messages handed to [websocket.send], in order. *)
Fixpoint sent_messages (t : list event) : list bytes :=
  match t with
  | [] => []
  | WebsocketSend m :: t' => m :: sent_messages t'
  | _ :: t' => sent_messages t'
  end.

(** Text as a WebSocket frame can carry it: Unicode scalar values only
    (the frame is valid UTF-8). *)
Definition well_formed (message : ws_message) : bool :=
  match message with
  | Text s => forallb is_scalar_value s
  | Binary _ => true
  end.

(** The UTF-8 encoding of a text of scalar values: the encodings of its
    code points, one after the other. *)
Definition utf8 (s : str) : bytes :=
  flat_map (fun cp => match utf8_of_code_point cp with
                      | Some x => x
                      | None => []
                      end) s.

(** The payload of a message as bytes: text in UTF-8, binary data as it
    is. *)
Definition payload (message : ws_message) : bytes :=
  match message with
  | Text s => utf8 s
  | Binary data => data
  end.

(** The record the handler writes for an exception it catches. *)
Definition handler_log (e : exn) : event :=
  match e with
  | CancelledError =>
      Log WARNING "WebSocket connection task cancelled unexpectedly"
  | _ => LogExn ERROR "Error in WebSocket connection handling: " e
  end.

(** The environment once the handler has dialled and created its two
    tasks. *)
Definition session_started (self : adapter) (w : world) : world :=
  record (CreateTask WsToTcp)
    (record (CreateTask TcpToWs)
       (record (OpenConnection (tcp_host self) (tcp_port self))
          (record (Log INFO "New WebSocket connection established.") w))).

(** The adapter of the test suite: TCP localhost:4242, WS localhost:5050,
    the default buffer size. *)
Definition test_adapter : adapter :=
  __init__ "localhost" 4242 "localhost" 5050 1024.

(** A session with quiet transports in which the client sends [messages]
    and then closes. *)
Definition client_sends (messages : list ws_message) : world :=
  mkWorld None [] [] (map Ok messages) [] None false false [].

(** A session whose TCP dial fails with [e]. *)
Definition dial_fails (e : exn) : world :=
  mkWorld (Some e) [] [] [] [] None false false [].

(** A session in which the TCP connection breaks: the read of the
    TCP-to-WS task and the drain of the WS-to-TCP task both raise, the
    read first. *)
Definition both_forwarders_fail : world :=
  mkWorld None
          [Err (OSError "Connection reset by peer")]
          []
          [Ok (Binary (b "x"))]
          [Some (OSError "Broken pipe")]
          None false true [].

(** A session whose WebSocket client is gone while the TCP peer still
    delivers two frames, in two reads: both sends raise
    [ConnectionClosed]. *)
Definition closed_client_world : world :=
  mkWorld None
          [Ok (b "a" ++ CRLF); Ok (b "b" ++ CRLF)]
          [Some ConnectionClosed; Some ConnectionClosed]
          [] [] None false false [].

End Session.

(** ** The server life cycle: [_ws_server_runner], [start], [stop] *)

Module Lifecycle.

(** Where the task running [_ws_server_runner] stands.
    - [Pending]: created, and not yet past [await websockets.serve(...)];
    - [Serving s]: suspended in [await self._ws_server.wait_closed()],
      where [self._ws_server] is the server [s];
    - [Finished]: the coroutine returned;
    - [Cancelled]: the coroutine ended with [CancelledError];
    - [Failed e]: the coroutine ended with the exception [e]. *)
Inductive task_state : Type :=
| Pending
| Serving (server : nat)
| Finished
| Cancelled
| Failed (e : exn).

(** [task.done()]. *)
Definition done (st : task_state) : bool :=
  match st with
  | Pending | Serving _ => false
  | Finished | Cancelled | Failed _ => true
  end.

Inductive server_state : Type := Listening | Closed.

(** The adapter together with the objects of the event loop it refers to:
    tasks and servers are kept in stores and referred to by their index,
    so that the adapter's attribute and the event loop see one object.
    [runner_resumes_first] is the event loop's choice, when a server is
    closed, to resume the runner waiting for it before it resumes [stop]. *)
Record loop : Type := mkLoop {
  self : adapter;
  tasks : list task_state;
  servers : list server_state;
  runner_resumes_first : bool;
  log : list (Session.level * string)
}.

Fixpoint set_nth {A} (i : nat) (x : A) (l : list A) : list A :=
  match l, i with
  | [], _ => []
  | _ :: t, 0 => x :: t
  | h :: t, S i' => h :: set_nth i' x t
  end.

Definition set_self (a : adapter) (l : loop) : loop :=
  mkLoop a (tasks l) (servers l) (runner_resumes_first l) (log l).

Definition set_tasks (ts : list task_state) (l : loop) : loop :=
  mkLoop (self l) ts (servers l) (runner_resumes_first l) (log l).

Definition set_servers (ss : list server_state) (l : loop) : loop :=
  mkLoop (self l) (tasks l) ss (runner_resumes_first l) (log l).

Definition set_runner_resumes_first (x : bool) (l : loop) : loop :=
  mkLoop (self l) (tasks l) (servers l) x (log l).

(** The event loop right after the adapter is constructed. *)
Definition boot (a : adapter) (runner_first : bool) : loop :=
  mkLoop a [] [] runner_first [].

(** *** The calls into [logging], [asyncio] and [websockets] *)

Definition logging (lvl : Session.level) (text : string) : M loop unit :=
  fun l => Some (Ok tt, mkLoop (self l) (tasks l) (servers l)
                               (runner_resumes_first l)
                               (log l ++ [(lvl, text)])).

Definition get_self : M loop adapter :=
  fun l => Some (Ok (self l), l).

Definition put_self (a : adapter) : M loop unit :=
  fun l => Some (Ok tt, set_self a l).

(** [asyncio.create_task(self._ws_server_runner())]. *)
Definition create_task : M loop nat :=
  fun l => Some (Ok (List.length (tasks l)),
                 set_tasks (tasks l ++ [Pending]) l).

(** [task.done()]; a reference always designates an object of the store
    ([wf_handles]), there is no answer otherwise. *)
Definition task_done (t : nat) : M loop bool :=
  fun l =>
    match nth_error (tasks l) t with
    | Some st => Some (Ok (done st), l)
    | None => None
    end.

(** [task.cancel()]: a task that is not done receives [CancelledError] at
    the [await] it is suspended in; neither [await] of the runner is inside
    a handler for it ([except Exception] does not match), so the task ends
    cancelled. *)
Definition task_cancel (t : nat) : M loop unit :=
  fun l =>
    match nth_error (tasks l) t with
    | Some st =>
        Some (Ok tt, if done st then l
                     else set_tasks (set_nth t Cancelled (tasks l)) l)
    | None => None
    end.

(** [await task]: the result of a task that is done; waiting for a task
    that never ends has no outcome. *)
Definition await_task (t : nat) : M loop unit :=
  fun l =>
    match nth_error (tasks l) t with
    | Some Finished => Some (Ok tt, l)
    | Some Cancelled => Some (Err CancelledError, l)
    | Some (Failed e) => Some (Err e, l)
    | Some Pending | Some (Serving _) | None => None
    end.

(** [await websockets.serve(handler, host, port)]: a new listening server,
    or the exception [bind] when the endpoint cannot be bound.  The call
    is taken as one step, so the store of servers holds the servers that
    [websockets.serve] has returned; a socket that a call cancelled
    before it returned has left listening is not among them. *)
Definition websockets_serve (bind : option exn) : M loop nat :=
  fun l =>
    match bind with
    | None => Some (Ok (List.length (servers l)),
                    set_servers (servers l ++ [Listening]) l)
    | Some e => Some (Err e, l)
    end.

(** [server.close()]. *)
Definition server_close (s : nat) : M loop unit :=
  fun l =>
    match nth_error (servers l) s with
    | Some _ => Some (Ok tt, set_servers (set_nth s Closed (servers l)) l)
    | None => None
    end.

(** What [_ws_server_runner] does once its [wait_closed] returns: it
    leaves the [try] block and returns. *)
Definition resume_runner (s : nat) (st : task_state) : task_state :=
  match st with
  | Serving s' => if Nat.eqb s' s then Finished else st
  | _ => st
  end.

(** [await server.wait_closed()] as awaited by [stop]: it returns once the
    server is closed; the runner suspended in the same wait may be
    resumed, and return, before [stop] goes on. *)
Definition server_wait_closed (s : nat) : M loop unit :=
  fun l =>
    match nth_error (servers l) s with
    | Some Closed =>
        Some (Ok tt, if runner_resumes_first l
                     then set_tasks (map (resume_runner s) (tasks l)) l
                     else l)
    | Some Listening | None => None
    end.

(** *** [_ws_server_runner] *)

(** The coroutine up to its suspension in [wait_closed]: the value is the
    server it then waits for, or [None] when it has returned. *)
Definition _ws_server_runner (bind : option exn) : M loop (option nat) :=
  try_except
    (s <- websockets_serve bind ;;
     a <- get_self ;;
     put_self (set__ws_server (Some s) a) ;;
     logging Session.INFO "WebSocket server started" ;;
     a <- get_self ;;
     ret (_ws_server a))
    (fun e =>
       if is_Exception e
       then Some (logging Session.ERROR "Error starting WebSocket server" ;;
                  ret None)
       else None).

(** The state of a task whose coroutine ended with the exception [e]. *)
Definition settle (e : exn) : task_state :=
  match e with
  | CancelledError => Cancelled
  | _ => Failed e
  end.

(** The event loop gives the task [t] a turn: a pending runner runs up to
    its suspension ([bind] is how the endpoint answers), a runner whose
    server has been closed returns, any other task is left as it is. *)
Definition run_task (t : nat) (bind : option exn) (l : loop) : loop :=
  match nth_error (tasks l) t with
  | Some Pending =>
      match _ws_server_runner bind l with
      | Some (Ok (Some s), l') => set_tasks (set_nth t (Serving s) (tasks l')) l'
      | Some (Ok None, l') => set_tasks (set_nth t Finished (tasks l')) l'
      | Some (Err e, l') => set_tasks (set_nth t (settle e) (tasks l')) l'
      | None => l
      end
  | Some (Serving s) =>
      match nth_error (servers l) s with
      | Some Closed => set_tasks (set_nth t Finished (tasks l)) l
      | _ => l
      end
  | _ => l
  end.

(** *** [start] and [stop] *)

Definition start : M loop unit :=
  a <- get_self ;;
  spawn <- match _ws_server_runner_task a with
           | None => ret true
           | Some t => task_done t
           end ;;
  if spawn : bool then
    t <- create_task ;;
    a <- get_self ;;
    put_self (set__ws_server_runner_task (Some t) a) ;;
    logging Session.INFO "Server started successfully."
  else ret tt.

(** Lines 160-163 of [stop]. *)
Definition stop_close_server : M loop unit :=
  a <- get_self ;;
  match _ws_server a with
  | Some s =>
      server_close s ;;
      server_wait_closed s ;;
      logging Session.INFO "Server stopped gracefully."
  | None => ret tt
  end.

(** Lines 165-170 of [stop]. *)
Definition stop_cancel_runner : M loop unit :=
  a <- get_self ;;
  match _ws_server_runner_task a with
  | Some t =>
      task_cancel t ;;
      try_except
        (await_task t)
        (fun e =>
           match e with
           | CancelledError =>
               Some (logging Session.INFO "WebSocket server task was cancelled.")
           | _ => None
           end)
  | None => ret tt
  end.

(** Lines 172-174 of [stop]. *)
Definition stop_clear_handles : M loop unit :=
  a <- get_self ;;
  put_self (set__ws_server None a) ;;
  a <- get_self ;;
  put_self (set__ws_server_runner_task None a) ;;
  logging Session.INFO "Server resources cleaned up.".

Definition stop : M loop unit :=
  stop_close_server ;;
  stop_cancel_runner ;;
  stop_clear_handles.

(** *** States of the bridge *)

(** Running: a runner task exists and is not finished. *)
Definition is_running (l : loop) : bool :=
  match _ws_server_runner_task (self l) with
  | Some t =>
      match nth_error (tasks l) t with
      | Some st => negb (done st)
      | None => false
      end
  | None => false
  end.

(** Idle: both handles are [None]. *)
Definition is_idle (l : loop) : bool :=
  match _ws_server (self l), _ws_server_runner_task (self l) with
  | None, None => true
  | _, _ => false
  end.

Definition is_listening (s : server_state) : bool :=
  match s with
  | Listening => true
  | Closed => false
  end.

(** The number of servers of the store that listen. *)
Definition listening (l : loop) : nat :=
  List.length (filter is_listening (servers l)).

(** The number of runner tasks that are not done. *)
Definition live_tasks (l : loop) : nat :=
  List.length (filter (fun st => negb (done st)) (tasks l)).

(** The states the bridge can be in: from construction, by calls of
    [start] and [stop] and turns of the event loop. *)
Inductive reachable : loop -> Prop :=
| reach_boot (a : adapter) (x : bool) :
    _ws_server a = None -> _ws_server_runner_task a = None ->
    reachable (boot a x)
| reach_start (l l' : loop) (r : outcome unit) :
    reachable l -> start l = Some (r, l') -> reachable l'
| reach_stop (l l' : loop) (r : outcome unit) :
    reachable l -> stop l = Some (r, l') -> reachable l'
| reach_run (l : loop) (t : nat) (bind : option exn) :
    reachable l -> reachable (run_task t bind l)
| reach_schedule (l : loop) (x : bool) :
    reachable l -> reachable (set_runner_resumes_first x l).

(** What a task may be, given what the adapter refers to: only the task
    the adapter holds can be unfinished, a task suspended in a server's
    [wait_closed] waits for the server the adapter holds, and no runner
    ends with an exception other than its cancellation. *)
Definition task_ok (l : loop) (t : nat) (st : task_state) : Prop :=
  match st with
  | Pending => _ws_server_runner_task (self l) = Some t
  | Serving s =>
      _ws_server_runner_task (self l) = Some t /\ _ws_server (self l) = Some s
  | Finished | Cancelled => True
  | Failed _ => False
  end.

(** The invariant of the life cycle. *)
Record wf (l : loop) : Prop := mkWf {
  wf_tasks : forall t st, nth_error (tasks l) t = Some st -> task_ok l t st;
  wf_servers : forall s, nth_error (servers l) s = Some Listening ->
                         _ws_server (self l) = Some s;
  wf_server_handle : forall s, _ws_server (self l) = Some s ->
      nth_error (servers l) s = Some Listening /\
      exists t, _ws_server_runner_task (self l) = Some t /\
                nth_error (tasks l) t = Some (Serving s);
  wf_task_handle : forall t, _ws_server_runner_task (self l) = Some t ->
      exists st, nth_error (tasks l) t = Some st
}.

(** The state [start] leaves when it spawns a runner. *)
Definition spawned (l : loop) : loop :=
  mkLoop (set__ws_server_runner_task (Some (List.length (tasks l))) (self l))
         (tasks l ++ [Pending]) (servers l) (runner_resumes_first l)
         (log l ++ [(Session.INFO, "Server started successfully."%string)]).

(** Nothing is left running: every task is done and every server closed. *)
Definition quiescent (l : loop) : Prop :=
  (forall t st, nth_error (tasks l) t = Some st ->
                st = Finished \/ st = Cancelled) /\
  (forall s st, nth_error (servers l) s = Some st -> st = Closed).

(** A bridge on which [start] has been called once, and the same bridge
    after its runner has bound the endpoint. *)
Definition started_bridge : loop :=
  spawned (boot Session.test_adapter true).

Definition serving_bridge : loop :=
  run_task 0 None started_bridge.

End Lifecycle.

(** ** Further vocabulary: outcomes, sent frames, the configuration *)

(** The exceptions the two forwarders catch:
    [except (asyncio.CancelledError, websockets.exceptions.ConnectionClosed)]. *)
Definition swallowed (e : exn) : bool :=
  match e with
  | CancelledError | ConnectionClosed => true
  | _ => false
  end.

(** A call that, when it is a send, sends a message free of CR LF. *)
Definition sends_frame (e : Session.event) : Prop :=
  match e with
  | Session.WebsocketSend m => bytes_in CRLF m = false
  | _ => True
  end.

(** The constructor arguments of the adapter. *)
Definition config (a : adapter) : string * N * string * N * N :=
  (tcp_host a, tcp_port a, ws_host a, ws_port a, buffer_size a).

Definition same_config (l l' : Lifecycle.loop) : Prop :=
  config (Lifecycle.self l') = config (Lifecycle.self l).

(** The part of the environment only [_forward_ws_to_tcp] consumes. *)
Definition same_ws_side (w w' : Session.world) : Prop :=
  Session.incoming w' = Session.incoming w /\
  Session.drains w' = Session.drains w.

(** The state [stop] leaves when the bridge is Idle already. *)
Definition stopped_idle (l : Lifecycle.loop) : Lifecycle.loop :=
  Lifecycle.mkLoop (Lifecycle.self l) (Lifecycle.tasks l) (Lifecycle.servers l)
    (Lifecycle.runner_resumes_first l)
    (Lifecycle.log l ++
       [(Session.INFO, "Server resources cleaned up."%string)]).

(** How [_forward_ws_to_tcp] stopped taking messages from the WebSocket,
    where [received] are the messages it took and wrote and [tail] is
    what the iterator had behind them: the iterator was used up; or it
    raised [e]; or [str.encode()] raised on the next message; or the
    [drain()] after the last message written raised, the rest of the
    iterator untouched. *)
Definition iteration_ended (w w' : Session.world)
    (received : list Session.ws_message)
    (tail : list (outcome Session.ws_message)) : Prop :=
  (tail = [] /\ Session.incoming w' = []) \/
  (exists e, tail = Err e :: Session.incoming w') \/
  (exists s e, tail = Ok (Session.Text s) :: Session.incoming w' /\
               PyStr.encode s = Err e) \/
  (exists e, tail = Session.incoming w' /\ received <> [] /\
             nth_error (Session.drains w) (List.length received - 1) =
             Some (Some e)).

(** A session in which the client sends an empty text message and is
    then lost: the iteration raises [ConnectionClosed]. *)
Definition empty_then_lost : Session.world :=
  Session.mkWorld None [] []
    [Ok (Session.Text []); Err ConnectionClosed] [] None false false [].

(** The events [_handle_ws_connection] records itself: its log records,
    the dial and the creation of the two tasks.  Every other event is a
    call of one of the forwarders. *)
Definition is_handler_event (e : Session.event) : bool :=
  match e with
  | Session.Log _ text =>
      String.eqb text "New WebSocket connection established." ||
      String.eqb text "WebSocket connection task cancelled unexpectedly" ||
      String.eqb text "WebSocket client disconnected"
  | Session.LogExn _ _ _ => true
  | Session.OpenConnection _ _ => true
  | Session.CreateTask _ => true
  | _ => false
  end.

(** A call of one of the forwarders. *)
Definition forwarder_call (e : Session.event) : Prop :=
  is_handler_event e = false.
(** ** Facts about [find], [partition] and [in] for the CR LF delimiter *)

Section CrlfFacts.

Lemma startswith_crlf (s : bytes) :
  startswith s CRLF = true <-> exists r, s = CRLF ++ r.
Proof.
  unfold CRLF. split.
  - destruct s as [|c [|d r]]; cbn [startswith];
      rewrite ?andb_true_r, ?andb_false_r; try discriminate.
    intros H. apply andb_prop in H as [H1 H2].
    apply Byte.byte_dec_bl in H1, H2. subst. now exists r.
  - intros [r ->]. reflexivity.
Qed.

Lemma find_nil_crlf : find [] CRLF = None.
Proof. reflexivity. Qed.

Lemma find_cons_crlf (c : byte) (t : bytes) :
  find (c :: t) CRLF =
  if startswith (c :: t) CRLF then Some 0 else option_map S (find t CRLF).
Proof. reflexivity. Qed.

(** A found index splits the buffer around the first delimiter. *)
Lemma find_crlf_Some (s : bytes) (i : nat) :
  find s CRLF = Some i ->
  s = firstn i s ++ CRLF ++ skipn (i + 2) s /\
  length (firstn i s) = i /\
  find (firstn i s) CRLF = None.
Proof.
  revert i. induction s as [|c t IH]; intros i.
  - discriminate.
  - rewrite find_cons_crlf.
    destruct (startswith (c :: t) CRLF) eqn:Hs.
    + intros [= <-]. apply startswith_crlf in Hs as [r Hr].
      rewrite Hr. simpl. auto.
    + destruct (find t CRLF) as [j|] eqn:Hf; [|discriminate].
      intros [= <-]. destruct (IH j eq_refl) as (Heq & Hlen & Hnone).
      change (firstn (S j) (c :: t)) with (c :: firstn j t).
      change (skipn (S j + 2) (c :: t)) with (skipn (j + 2) t).
      repeat split.
      * rewrite <- app_comm_cons. f_equal. exact Heq.
      * cbn [List.length]. now rewrite Hlen.
      * rewrite find_cons_crlf, Hnone.
        destruct (startswith (c :: firstn j t) CRLF) eqn:Hs'; [|reflexivity].
        exfalso. apply startswith_crlf in Hs' as [r Hr].
        assert (Hc : startswith (c :: t) CRLF = true); [|congruence].
        apply startswith_crlf.
        injection Hr as -> Hr.
        destruct j as [|j]; destruct t as [|d t]; try discriminate.
        injection Hr as -> _. now exists t.
Qed.

(** A delimiter-free prefix followed by the delimiter: the first
    occurrence is exactly at the end of the prefix. *)
Lemma find_crlf_app (f r : bytes) :
  find f CRLF = None -> find (f ++ CRLF ++ r) CRLF = Some (List.length f).
Proof.
  induction f as [|c f IH]; intros Hf.
  - reflexivity.
  - rewrite find_cons_crlf in Hf.
    destruct (startswith (c :: f) CRLF) eqn:Hs; [discriminate|].
    destruct (find f CRLF) eqn:Hf'; [discriminate|].
    rewrite <- app_comm_cons, find_cons_crlf, (IH eq_refl).
    destruct (startswith (c :: f ++ CRLF ++ r) CRLF) eqn:Hs'; [|reflexivity].
    exfalso. apply startswith_crlf in Hs' as [r' Hr'].
    injection Hr' as -> Hr'.
    destruct f as [|d f].
    + discriminate Hr'.
    + injection Hr' as -> _. discriminate Hs.
Qed.

Lemma bytes_in_false (s : bytes) :
  bytes_in CRLF s = false <-> find s CRLF = None.
Proof. unfold bytes_in. destruct (find s CRLF); split; congruence. Qed.

Lemma bytes_in_crlf_app (f r : bytes) :
  bytes_in CRLF f = false -> bytes_in CRLF (f ++ CRLF ++ r) = true.
Proof.
  intros H. apply bytes_in_false in H.
  unfold bytes_in. now rewrite (find_crlf_app _ _ H).
Qed.

Lemma skipn_app_exact {A} (l1 l2 l3 : list A) :
  skipn (List.length l1 + List.length l2) (l1 ++ l2 ++ l3) = l3.
Proof.
  rewrite app_assoc, <- length_app.
  rewrite skipn_app, skipn_all, Nat.sub_diag. reflexivity.
Qed.

Lemma firstn_app_exact {A} (l1 l2 : list A) :
  firstn (List.length l1) (l1 ++ l2) = l1.
Proof.
  rewrite firstn_app, firstn_all, Nat.sub_diag. simpl. apply app_nil_r.
Qed.

(** [partition] on a delimiter-free prefix followed by the delimiter. *)
Lemma partition_crlf_app (f r : bytes) :
  bytes_in CRLF f = false ->
  partition (f ++ CRLF ++ r) CRLF = (f, CRLF, r).
Proof.
  intros H. apply bytes_in_false in H.
  unfold partition. rewrite (find_crlf_app _ _ H).
  now rewrite firstn_app_exact, skipn_app_exact.
Qed.

(** Whenever the delimiter occurs, the buffer has a delimiter-free head
    in front of its first occurrence. *)
Lemma bytes_in_crlf_split (s : bytes) :
  bytes_in CRLF s = true ->
  exists f r, s = f ++ CRLF ++ r /\ bytes_in CRLF f = false.
Proof.
  unfold bytes_in at 1. destruct (find s CRLF) as [i|] eqn:Hf; [|discriminate].
  intros _. destruct (find_crlf_Some _ _ Hf) as (Heq & _ & Hnone).
  exists (firstn i s), (skipn (i + 2) s). split; [exact Heq|].
  now apply bytes_in_false.
Qed.

End CrlfFacts.

(** ** The framer terminates and is characterised by two equations *)

Section DecodeFacts.

Lemma decode_loop_stop (fuel : nat) (buffer : bytes) (frames : list bytes) :
  bytes_in CRLF buffer = false ->
  decode_loop fuel buffer frames = Some (frames, buffer).
Proof. intros H. destruct fuel; simpl; now rewrite H. Qed.

Lemma decode_loop_step (fuel : nat) (f r : bytes) (frames : list bytes) :
  bytes_in CRLF f = false ->
  decode_loop (S fuel) (f ++ CRLF ++ r) frames =
  decode_loop fuel r (frames ++ [f]).
Proof.
  intros H. cbn [decode_loop].
  now rewrite (bytes_in_crlf_app _ _ H), (partition_crlf_app _ _ H).
Qed.

(** The frames already collected are only ever appended to. *)
Lemma decode_loop_acc (fuel : nat) :
  forall (buffer : bytes) (frames : list bytes),
    decode_loop fuel buffer frames =
    option_map (fun '(fs, rest) => (frames ++ fs, rest))
               (decode_loop fuel buffer []).
Proof.
  induction fuel as [|fuel IH]; intros buffer frames.
  - simpl. destruct (bytes_in CRLF buffer); simpl; [reflexivity|].
    now rewrite app_nil_r.
  - destruct (bytes_in CRLF buffer) eqn:Hin.
    + destruct (bytes_in_crlf_split _ Hin) as (f & r & -> & Hf).
      rewrite (decode_loop_step fuel f r frames Hf).
      rewrite (decode_loop_step fuel f r [] Hf).
      rewrite (IH r (frames ++ [f])), (IH r ([] ++ [f])).
      destruct (decode_loop fuel r []) as [[fs rest]|]; simpl; [|reflexivity].
      now rewrite <- app_assoc.
    + rewrite !decode_loop_stop by assumption. simpl. now rewrite app_nil_r.
Qed.

(** Termination: a budget of [length buffer] iterations always suffices. *)
Lemma decode_loop_total (fuel : nat) :
  forall (buffer : bytes) (frames : list bytes),
    List.length buffer <= fuel ->
    exists r, decode_loop fuel buffer frames = Some r.
Proof.
  induction fuel as [|fuel IH]; intros buffer frames Hlen.
  - destruct buffer; [|simpl in Hlen; lia].
    exists (frames, []). reflexivity.
  - destruct (bytes_in CRLF buffer) eqn:Hin.
    + destruct (bytes_in_crlf_split _ Hin) as (f & r & -> & Hf).
      rewrite (decode_loop_step _ _ _ _ Hf). apply IH.
      rewrite !length_app in Hlen. simpl in Hlen. lia.
    + exists (frames, buffer). now apply decode_loop_stop.
Qed.

(** More budget does not change a result. *)
Lemma decode_loop_fuel (fuel : nat) :
  forall (fuel' : nat) (buffer : bytes) (frames : list bytes) r,
    decode_loop fuel buffer frames = Some r -> fuel <= fuel' ->
    decode_loop fuel' buffer frames = Some r.
Proof.
  induction fuel as [|fuel IH]; intros fuel' buffer frames r Hr Hle.
  - simpl in Hr. destruct (bytes_in CRLF buffer) eqn:Hin; [discriminate|].
    injection Hr as <-. now apply decode_loop_stop.
  - destruct fuel' as [|fuel']; [lia|].
    destruct (bytes_in CRLF buffer) eqn:Hin.
    + destruct (bytes_in_crlf_split _ Hin) as (f & r0 & -> & Hf).
      rewrite (decode_loop_step fuel _ _ _ Hf) in Hr.
      rewrite (decode_loop_step fuel' _ _ _ Hf).
      eapply IH; [eassumption | lia].
    + rewrite decode_loop_stop in * by assumption. assumption.
Qed.

Lemma decode_opt_total (buffer : bytes) :
  decode_opt buffer = Some (decode buffer).
Proof.
  unfold decode. destruct (decode_loop_total _ buffer [] (le_n _)) as [r Hr].
  unfold decode_opt. now rewrite Hr.
Qed.

(** First equation: without a delimiter nothing is split off. *)
Lemma decode_no_delimiter (buffer : bytes) :
  bytes_in CRLF buffer = false -> decode buffer = ([], buffer).
Proof.
  intros H. unfold decode, decode_opt. now rewrite decode_loop_stop.
Qed.

(** Second equation: the head in front of the first delimiter is the first
    frame, and decoding continues behind that delimiter. *)
Lemma decode_first_frame (f r : bytes) :
  bytes_in CRLF f = false ->
  decode (f ++ CRLF ++ r) = (f :: fst (decode r), snd (decode r)).
Proof.
  intros Hf.
  pose proof (decode_opt_total r) as Hr. unfold decode_opt in Hr.
  assert (H : decode_opt (f ++ CRLF ++ r) =
              Some (f :: fst (decode r), snd (decode r))).
  { unfold decode_opt.
    eapply decode_loop_fuel with (fuel := S (List.length r)).
    - rewrite (decode_loop_step _ _ _ _ Hf), decode_loop_acc, Hr.
      simpl. now destruct (decode r).
    - rewrite !length_app. simpl. lia. }
  unfold decode. now rewrite H.
Qed.

End DecodeFacts.


(** ** The framer: what [decode] computes *)

Section FramerProperties.

(** Reasoning on a buffer by its first delimiter. *)
Lemma buffer_ind (P : bytes -> Prop) :
  (forall s, bytes_in CRLF s = false -> P s) ->
  (forall f r, bytes_in CRLF f = false -> P r -> P (f ++ CRLF ++ r)) ->
  forall s, P s.
Proof.
  intros Hstop Hstep s.
  remember (List.length s) as n eqn:Hn.
  revert s Hn. induction n as [n IH] using lt_wf_ind. intros s ->.
  destruct (bytes_in CRLF s) eqn:Hin.
  - destruct (bytes_in_crlf_split _ Hin) as (f & r & -> & Hf).
    apply Hstep; [exact Hf|].
    apply (IH (List.length r)); [|reflexivity].
    rewrite !length_app. simpl. lia.
  - now apply Hstop.
Qed.

Lemma decode_nil : decode [] = ([], []).
Proof. reflexivity. Qed.

(** [decode] inverts the concatenation of encoded frames and a
    delimiter-free tail: no other split has delimiter-free parts. *)
Lemma decode_concat (frames : list bytes) (rest : bytes) :
  Forall (fun f => bytes_in CRLF f = false) frames ->
  bytes_in CRLF rest = false ->
  decode (concat (map Framer.encode frames) ++ rest) = (frames, rest).
Proof.
  intros Hfs Hrest. induction Hfs as [|f fs Hf _ IH].
  - now apply decode_no_delimiter.
  - cbn [map concat]. unfold Framer.encode at 1.
    rewrite <- !app_assoc, (decode_first_frame _ _ Hf), IH. reflexivity.
Qed.

(** What [decode] retains contains no delimiter. *)
Lemma decode_rest_no_delimiter (buffer : bytes) :
  bytes_in CRLF (snd (decode buffer)) = false.
Proof.
  induction buffer as [s Hs | f r Hf IH] using buffer_ind.
  - now rewrite (decode_no_delimiter _ Hs).
  - now rewrite (decode_first_frame _ _ Hf).
Qed.

(** C6 -- Greedy left-to-right decode.  For every accumulated buffer,
    [decode] (the loop of lines 72-73) ends and cuts the buffer at every
    CR LF from left to right: the buffer is the frames, each followed by
    the delimiter, followed by the retained rest; no frame contains the
    delimiter; the rest contains none either, so it is exactly what
    follows the last delimiter (the whole buffer when there is none). *)
Theorem decode_greedy (buffer : bytes) :
  decode_opt buffer = Some (decode buffer) /\
  buffer = concat (map Framer.encode (fst (decode buffer))) ++ snd (decode buffer) /\
  Forall (fun f => bytes_in CRLF f = false) (fst (decode buffer)) /\
  bytes_in CRLF (snd (decode buffer)) = false /\
  match fst (decode buffer) with
  | [] => snd (decode buffer) = buffer
  | _ :: _ => exists before, buffer = before ++ CRLF ++ snd (decode buffer)
  end.
Proof.
  split; [apply decode_opt_total|].
  induction buffer as [s Hs | f r Hf IH] using buffer_ind.
  - rewrite (decode_no_delimiter _ Hs). simpl. auto.
  - rewrite (decode_first_frame _ _ Hf). cbn [fst snd map concat].
    destruct IH as (Heq & Hfs & Hrest & Hlast).
    repeat split.
    + unfold Framer.encode at 1. rewrite <- !app_assoc. do 2 f_equal. exact Heq.
    + now constructor.
    + exact Hrest.
    + destruct (fst (decode r)) as [|g gs].
      * exists f. now rewrite Hlast.
      * destruct Hlast as [before Hb]. exists (f ++ CRLF ++ before).
        rewrite <- !app_assoc. do 2 f_equal. exact Hb.
Qed.

(** A delimiter-free payload followed by the delimiter is one frame. *)
Lemma decode_single_frame (payload : bytes) :
  bytes_in CRLF payload = false ->
  decode (payload ++ CRLF) = ([payload], []).
Proof.
  intros H.
  rewrite <- (app_nil_r CRLF), (decode_first_frame _ _ H), decode_nil.
  reflexivity.
Qed.

(** C1 -- Round-trip framing.  For every payload without CR LF, decoding
    its encoding (the payload followed by [b'\r\n']) yields the frame
    list [[payload]] and an empty partial buffer. *)
Theorem decode_encode_roundtrip (payload : bytes) :
  bytes_in CRLF payload = false ->
  decode (Framer.encode payload) = ([payload], []).
Proof.
  intros H. unfold Framer.encode.
  rewrite <- (app_nil_r CRLF), (decode_first_frame _ _ H).
  rewrite decode_nil. reflexivity.
Qed.

Lemma decode_encode_roundtrip_witness :
  bytes_in CRLF (b "Hello from TCP") = false /\
  decode (Framer.encode (b "Hello from TCP")) = ([b "Hello from TCP"], []).
Proof.
  split; [reflexivity|].
  apply (decode_encode_roundtrip (b "Hello from TCP")). reflexivity.
Defined.

(** C5, as amended -- Partial-frame retention.  A buffer without CR LF
    decodes to no frame and is retained whole; when the bytes appended
    next are [more] followed by the delimiter, and the retained bytes
    followed by [more] still contain no CR LF, decoding yields the single
    frame [buffer ++ more] and nothing is retained. *)
Theorem partial_frame_retention (buffer more : bytes) :
  bytes_in CRLF buffer = false ->
  bytes_in CRLF (buffer ++ more) = false ->
  decode buffer = ([], buffer) /\
  decode (snd (decode buffer) ++ more ++ CRLF) = ([buffer ++ more], []).
Proof.
  intros Hb Hbm. rewrite (decode_no_delimiter _ Hb). split; [reflexivity|].
  cbn [snd]. rewrite app_assoc. now apply decode_single_frame.
Qed.

Lemma partial_frame_retention_witness :
  bytes_in CRLF (b "Hel") = false /\
  bytes_in CRLF (b "Hel" ++ b "lo") = false /\
  decode (b "Hel") = ([], b "Hel") /\
  decode (snd (decode (b "Hel")) ++ b "lo" ++ CRLF) = ([b "Hel" ++ b "lo"], []).
Proof.
  split; [reflexivity|]. split; [reflexivity|].
  apply (partial_frame_retention (b "Hel") (b "lo")); reflexivity.
Defined.

(** C5 as stated fails when the delimiter forms across the junction.
    The retained bytes [b'a\r'] contain no CR LF.  Appending [b'\n']
    supplies the delimiter, and the one frame decoded is [b'a'], shorter
    than the retained bytes, so not these followed by anything.  Appending
    [b'\nb\r\n'],
    whose bytes [b'\nb'] in front of its delimiter contain no CR LF
    either, yields the two frames [b'a'] and [b'b'], not the one frame
    [b'a\r\nb']. *)
Lemma partial_frame_junction_counterexample :
  bytes_in CRLF (b "a" ++ [CR]) = false /\
  decode (b "a" ++ [CR]) = ([], b "a" ++ [CR]) /\
  decode ((b "a" ++ [CR]) ++ [LF]) = ([b "a"], []) /\
  List.length (b "a") < List.length (b "a" ++ [CR]) /\
  bytes_in CRLF ([LF] ++ b "b") = false /\
  decode ((b "a" ++ [CR]) ++ ([LF] ++ b "b") ++ CRLF) = ([b "a"; b "b"], []) /\
  decode ((b "a" ++ [CR]) ++ ([LF] ++ b "b") ++ CRLF)
    <> ([(b "a" ++ [CR]) ++ ([LF] ++ b "b")], []).
Proof.
  repeat split; try reflexivity; vm_compute; try discriminate; lia.
Qed.

End FramerProperties.

(** ** Reasoning about coroutines *)

Section Coroutines.

Context {St : Type}.

Variable R : St -> St -> Prop.
Hypothesis R_refl : forall s, R s s.
Hypothesis R_trans : forall s1 s2 s3, R s1 s2 -> R s2 s3 -> R s1 s3.

Lemma respects_ret {A} (a : A) : respects R (ret a).
Proof. intros s r s' [= _ <-]. apply R_refl. Qed.

Lemma respects_raise {A} (e : exn) : respects R (@raise St A e).
Proof. intros s r s' [= _ <-]. apply R_refl. Qed.

Lemma respects_stuck {A} : respects R (@stuck St A).
Proof. intros s r s' [=]. Qed.

Lemma respects_bind {A B} (m : M St A) (k : A -> M St B) :
  respects R m -> (forall a, respects R (k a)) -> respects R (bind m k).
Proof.
  intros Hm Hk s r s'. unfold bind.
  destruct (m s) as [[[a|e] s1]|] eqn:E; [| |discriminate].
  - intros H. eapply R_trans; [eapply Hm, E | eapply Hk, H].
  - intros [= _ <-]. eapply Hm, E.
Qed.

Lemma respects_try_except {A} (body : M St A) (h : exn -> option (M St A)) :
  respects R body ->
  (forall e m, h e = Some m -> respects R m) ->
  respects R (try_except body h).
Proof.
  intros Hb Hh s r s'. unfold try_except.
  destruct (body s) as [[[a|e] s1]|] eqn:E; [| |discriminate].
  - intros [= _ <-]. eapply Hb, E.
  - destruct (h e) as [m|] eqn:He.
    + intros H. eapply R_trans; [eapply Hb, E | eapply Hh; eassumption].
    + intros [= _ <-]. eapply Hb, E.
Qed.

Lemma respects_try_finally {A} (body : M St A) (final : M St unit) :
  respects R body -> respects R final -> respects R (try_finally body final).
Proof.
  intros Hb Hf s r s'. unfold try_finally.
  destruct (body s) as [[rb s1]|] eqn:E; [|discriminate].
  destruct (final s1) as [[[u|e] s2]|] eqn:F; [| |discriminate].
  all: intros [= _ <-]; eapply R_trans; [eapply Hb, E | eapply Hf, F].
Qed.

Lemma respects_with_fuel {A} (budget : St -> nat) (body : nat -> M St A) :
  (forall n, respects R (body n)) -> respects R (with_fuel budget body).
Proof. intros H s r s'. unfold with_fuel. apply H. Qed.

End Coroutines.

Lemma total_bind {St A B} (m : M St A) (k : A -> M St B) :
  total m -> (forall a, total (k a)) -> total (bind m k).
Proof.
  intros Hm Hk s. unfold bind.
  destruct (Hm s) as (r & s1 & ->). destruct r as [a|e]; [apply Hk|eauto].
Qed.

Lemma total_try_except {St A} (body : M St A) (h : exn -> option (M St A)) :
  total body -> (forall e m, h e = Some m -> total m) ->
  total (try_except body h).
Proof.
  intros Hb Hh s. unfold try_except.
  destruct (Hb s) as (r & s1 & ->). destruct r as [a|e]; [eauto|].
  destruct (h e) as [m|] eqn:He; [eapply Hh, He|eauto].
Qed.

Lemma total_try_finally {St A} (body : M St A) (final : M St unit) :
  total body -> total final -> total (try_finally body final).
Proof.
  intros Hb Hf s. unfold try_finally.
  destruct (Hb s) as (r & s1 & ->). destruct (Hf s1) as (r' & s2 & ->).
  destruct r'; eauto.
Qed.

(** ** The session: how the record of calls and the environment evolve *)

(** Unfold one call into the environment and read off its effect. *)
Ltac run_call H :=
  unfold Session.logging_info, Session.logging_warning,
    Session.logging_error, Session.logging_info_repr,
    Session.open_connection, Session.create_task, Session.reader_read,
    Session.websocket_send, Session.websocket_next, Session.writer_write,
    Session.writer_drain, Session.writer_close, Session.writer_wait_closed,
    Session.lift, Session.answer in H;
  repeat match type of H with
         | context [match ?x with _ => _ end] => destruct x eqn:?
         end;
  inversion H; subst; clear H.

Section SessionFrame.

Import Session.

Lemma evolves_refl P w : evolves P w w.
Proof.
  repeat split. exists []. now rewrite app_nil_r.
Qed.

Lemma evolves_trans P w1 w2 w3 :
  evolves P w1 w2 -> evolves P w2 w3 -> evolves P w1 w3.
Proof.
  intros ((e1 & H1 & F1) & A1 & B1 & C1 & D1) ((e2 & H2 & F2) & A2 & B2 & C2 & D2).
  repeat split; try congruence.
  exists (e1 ++ e2). rewrite H2, H1, app_assoc. split; [reflexivity|].
  apply Forall_app. now split.
Qed.

Lemma evolves_weaken (P Q : event -> Prop) w w' :
  (forall e, P e -> Q e) -> evolves P w w' -> evolves Q w w'.
Proof.
  intros HPQ ((evs & H & F) & rest). split; [|exact rest].
  exists evs. split; [exact H|]. eapply Forall_impl; eassumption.
Qed.

Lemma evolves_record (P : event -> Prop) e w :
  P e -> evolves P w (record e w).
Proof.
  intros He. repeat split. exists [e]. split; [reflexivity|]. now constructor.
Qed.

End SessionFrame.

Ltac evolves_call :=
  let H := fresh "H" in
  intros ? ? ? H; run_call H;
  first [ apply evolves_refl
        | match goal with
          | |- Session.evolves ?P _ (Session.record ?e ?w) => apply evolves_record
          | |- Session.evolves ?P ?w (?f ?x (Session.record ?e ?w)) =>
              apply (evolves_trans P w (Session.record e w));
              [apply evolves_record | repeat split; exists []; now rewrite app_nil_r]
          end ]; try assumption; try reflexivity.

Section SessionCalls.

Import Session.

Variable P : event -> Prop.

Lemma evolves_logging_info text :
  P (Log INFO text) -> respects (evolves P) (logging_info text).
Proof. intros HP. evolves_call. Qed.

Lemma evolves_logging_warning text :
  P (Log WARNING text) -> respects (evolves P) (logging_warning text).
Proof. intros HP. evolves_call. Qed.

Lemma evolves_logging_info_repr text payload :
  P (LogRepr INFO text payload) ->
  respects (evolves P) (logging_info_repr text payload).
Proof. intros HP. evolves_call. Qed.

Lemma evolves_reader_read n :
  P (ReaderRead n) -> respects (evolves P) (reader_read n).
Proof. intros HP. evolves_call. Qed.

Lemma evolves_websocket_send m :
  P (WebsocketSend m) -> respects (evolves P) (websocket_send m).
Proof. intros HP. evolves_call. Qed.

Lemma evolves_websocket_next :
  P WebsocketNext -> respects (evolves P) websocket_next.
Proof. intros HP. evolves_call. Qed.

Lemma evolves_writer_write data :
  P (WriterWrite data) -> respects (evolves P) (writer_write data).
Proof. intros HP. evolves_call. Qed.

Lemma evolves_writer_drain :
  P WriterDrain -> respects (evolves P) writer_drain.
Proof. intros HP. evolves_call. Qed.

Lemma evolves_lift {A} (r : outcome A) : respects (evolves P) (lift r).
Proof. evolves_call. Qed.

End SessionCalls.

(** ** [_forward_tcp_to_ws]: termination, and the calls it makes *)

Section TcpToWs.

Import Session.

Lemma same_reads_trans w1 w2 w3 :
  same_reads w1 w2 -> same_reads w2 w3 -> same_reads w1 w3.
Proof. unfold same_reads. congruence. Qed.

Lemma send_frames_unfold (fuel : nat) (buffer : bytes) :
  send_frames (S fuel) buffer =
  if bytes_in CRLF buffer then
    let '(message, _, buffer) := partition buffer CRLF in
    logging_info_repr "TCP -> WS: " message ;;
    sent <- try_except (websocket_send message ;; ret true) send_handler ;;
    if sent : bool then send_frames fuel buffer else ret buffer
  else ret buffer.
Proof. reflexivity. Qed.

Lemma send_frames_stop (fuel : nat) (buffer : bytes) :
  bytes_in CRLF buffer = false -> send_frames fuel buffer = ret buffer.
Proof. intros H. destruct fuel; simpl; now rewrite H. Qed.

Lemma send_frames_step (fuel : nat) (f r : bytes) :
  bytes_in CRLF f = false ->
  send_frames (S fuel) (f ++ CRLF ++ r) =
  (logging_info_repr "TCP -> WS: " f ;;
   sent <- try_except (websocket_send f ;; ret true) send_handler ;;
   if sent : bool then send_frames fuel r else ret r).
Proof.
  intros Hf. rewrite send_frames_unfold.
  now rewrite (bytes_in_crlf_app _ _ Hf), (partition_crlf_app _ _ Hf).
Qed.

Lemma send_attempt_total (message : bytes) :
  total (try_except (websocket_send message ;; ret true) send_handler).
Proof.
  apply total_try_except.
  - apply total_bind; [|intros; intros w; unfold ret; eauto].
    intros w. unfold websocket_send, answer.
    destruct (sends w) as [|[e|] ss]; eauto.
  - intros [] m [= <-].
    apply total_bind; [intros w|intros _ w]; unfold logging_warning, ret; eauto.
Qed.

(** The inner loop ends within [length buffer] iterations. *)
Lemma send_frames_total (fuel : nat) :
  forall buffer, List.length buffer <= fuel -> total (send_frames fuel buffer).
Proof.
  induction fuel as [|fuel IH]; intros buffer Hlen.
  - destruct buffer; [|simpl in Hlen; lia]. intros w. cbn. unfold ret. eauto.
  - destruct (bytes_in CRLF buffer) eqn:Hin.
    + destruct (bytes_in_crlf_split _ Hin) as (f & r & -> & Hf).
      rewrite (send_frames_step _ _ _ Hf).
      apply total_bind; [intros w; unfold logging_info_repr; eauto|intros _].
      apply total_bind; [apply send_attempt_total|intros [|]].
      * apply IH. rewrite !length_app in Hlen. simpl in Hlen. lia.
      * intros w. unfold ret. eauto.
    + rewrite (send_frames_stop _ _ Hin). intros w. unfold ret. eauto.
Qed.

Lemma send_attempt_respects (R : world -> world -> Prop) (message : bytes) :
  (forall w, R w w) -> (forall w1 w2 w3, R w1 w2 -> R w2 w3 -> R w1 w3) ->
  respects R (websocket_send message) ->
  respects R (logging_warning "WebSocket client disconnected during forwarding") ->
  respects R (try_except (websocket_send message ;; ret true) send_handler).
Proof.
  intros Rr Rt Hs Hl. apply respects_try_except; [assumption| |].
  - apply respects_bind; [assumption|assumption|]. intros _.
    now apply respects_ret.
  - intros [] m [= <-]. apply respects_bind; [assumption|assumption|].
    intros _. now apply respects_ret.
Qed.

Lemma send_frames_respects (R : world -> world -> Prop) :
  (forall w, R w w) -> (forall w1 w2 w3, R w1 w2 -> R w2 w3 -> R w1 w3) ->
  (forall m, respects R (websocket_send m)) ->
  (forall text, respects R (logging_warning text)) ->
  (forall text m, respects R (logging_info_repr text m)) ->
  forall fuel buffer, respects R (send_frames fuel buffer).
Proof.
  intros Rr Rt Hs Hw Hl. induction fuel as [|fuel IH]; intros buffer.
  - simpl. destruct (bytes_in CRLF buffer).
    + now apply respects_stuck.
    + now apply respects_ret.
  - destruct (bytes_in CRLF buffer) eqn:Hin.
    + destruct (bytes_in_crlf_split _ Hin) as (f & r & -> & Hf).
      rewrite (send_frames_step _ _ _ Hf).
      apply respects_bind; [assumption|apply Hl|intros _].
      apply respects_bind; [assumption| |intros [|]].
      * apply send_attempt_respects; auto.
      * apply IH.
      * now apply respects_ret.
    + rewrite (send_frames_stop _ _ Hin). now apply respects_ret.
Qed.

(** The inner loop never reads from the TCP stream. *)
Lemma send_frames_same_reads (fuel : nat) (buffer : bytes) :
  respects same_reads (send_frames fuel buffer).
Proof.
  apply send_frames_respects; try (unfold same_reads; congruence).
  - intros m w r w' H. run_call H; reflexivity.
  - intros text w r w' H. run_call H; reflexivity.
  - intros text m w r w' H. run_call H; reflexivity.
Qed.

Lemma send_frames_evolves (fuel : nat) (buffer : bytes) :
  respects (evolves tcp_to_ws_event) (send_frames fuel buffer).
Proof.
  apply send_frames_respects.
  - apply evolves_refl.
  - apply evolves_trans.
  - intros m. now apply evolves_websocket_send.
  - intros text. now apply evolves_logging_warning.
  - intros text m. now apply evolves_logging_info_repr.
Qed.

Lemma read_loop_unfold (self : adapter) (fuel : nat) (buffer : bytes) :
  read_loop self (S fuel) buffer =
  (data <- reader_read (buffer_size self) ;;
   match data with
   | [] => logging_info "TCP connection closed by peer"
   | _ :: _ =>
       buffer' <- send_frames (List.length (buffer ++ data)) (buffer ++ data) ;;
       read_loop self fuel buffer'
   end).
Proof. reflexivity. Qed.

(** The outer loop ends once the reader's script is used up: it then
    reads [b''] and leaves. *)
Lemma read_loop_total (self : adapter) (fuel : nat) :
  forall buffer w, List.length (reads w) < fuel ->
    exists r w', read_loop self fuel buffer w = Some (r, w').
Proof.
  induction fuel as [|fuel IH]; intros buffer w Hlen; [lia|].
  rewrite read_loop_unfold. unfold bind at 1. unfold reader_read.
  destruct (reads w) as [|[data|e] rest] eqn:Hr.
  - unfold logging_info. eauto.
  - destruct data as [|c data].
    + unfold logging_info. eauto.
    + unfold bind.
      destruct (send_frames_total (List.length (buffer ++ c :: data))
                  (buffer ++ c :: data) (le_n _)
                  (set_reads rest (record (ReaderRead (buffer_size self)) w)))
        as (r1 & w1 & E).
      rewrite E. destruct r1 as [buffer'|e]; [|eauto].
      apply IH. apply send_frames_same_reads in E. rewrite E.
      simpl in *. lia.
  - eauto.
Qed.

Lemma read_loop_evolves (self : adapter) (fuel : nat) :
  forall buffer, respects (evolves tcp_to_ws_event) (read_loop self fuel buffer).
Proof.
  induction fuel as [|fuel IH]; intros buffer.
  - apply respects_stuck.
  - rewrite read_loop_unfold.
    apply respects_bind; [apply evolves_trans| |intros [|c data]].
    + now apply evolves_reader_read.
    + now apply evolves_logging_info.
    + apply respects_bind; [apply evolves_trans| |intros buffer'].
      * apply send_frames_evolves.
      * apply IH.
Qed.

(** The [except (CancelledError, ConnectionClosed)] clause of
    [_forward_tcp_to_ws]. *)
Lemma _forward_tcp_to_ws_evolves (self : adapter) :
  respects (evolves tcp_to_ws_event) (_forward_tcp_to_ws self).
Proof.
  unfold _forward_tcp_to_ws.
  apply respects_try_finally; [apply evolves_trans| |].
  - apply respects_try_except; [apply evolves_trans| |].
    + apply respects_bind; [apply evolves_trans| |intros _].
      * now apply evolves_logging_info.
      * apply respects_with_fuel. intros n. apply read_loop_evolves.
    + intros [] m [= <-]; now apply evolves_logging_warning.
  - now apply evolves_logging_info.
Qed.

(** [_forward_tcp_to_ws] always comes to an end. *)
Lemma _forward_tcp_to_ws_total (self : adapter) :
  total (_forward_tcp_to_ws self).
Proof.
  unfold _forward_tcp_to_ws.
  apply total_try_finally; [|intros w; unfold logging_info; eauto].
  apply total_try_except.
  - apply total_bind; [intros w; unfold logging_info; eauto|intros _].
    intros w. unfold with_fuel. apply read_loop_total. lia.
  - intros [] m [= <-]; intros w; unfold logging_warning; eauto.
Qed.

End TcpToWs.

(** ** [_forward_ws_to_tcp]: termination, and the calls it makes *)

Section WsToTcp.

Import Session.

Lemma receive_loop_unfold (fuel : nat) :
  receive_loop (S fuel) =
  (next <- websocket_next ;;
   match next with
   | None => ret tt
   | Some message =>
       message <- match message with
                  | Text s => lift (PyStr.encode s)
                  | Binary data => ret data
                  end ;;
       logging_info_repr "WS -> TCP: " message ;;
       writer_write (message ++ CRLF) ;;
       writer_drain ;;
       receive_loop fuel
   end).
Proof. reflexivity. Qed.

Lemma receive_loop_evolves (fuel : nat) :
  respects (evolves ws_to_tcp_event) (receive_loop fuel).
Proof.
  induction fuel as [|fuel IH].
  - apply respects_stuck.
  - rewrite receive_loop_unfold.
    apply respects_bind; [apply evolves_trans| |intros [message|]].
    + now apply evolves_websocket_next.
    + apply respects_bind; [apply evolves_trans| |intros data].
      { destruct message; [apply evolves_lift|].
        apply respects_ret, evolves_refl. }
      apply respects_bind; [apply evolves_trans| |intros _].
      { now apply evolves_logging_info_repr. }
      apply respects_bind; [apply evolves_trans| |intros _].
      { now apply evolves_writer_write. }
      apply respects_bind; [apply evolves_trans| |intros _].
      { now apply evolves_writer_drain. }
      exact IH.
    + apply respects_ret, evolves_refl.
Qed.

(** The iteration ends once the script of incoming messages is used up. *)
Lemma receive_loop_total (fuel : nat) :
  forall w, List.length (incoming w) < fuel ->
    exists r w', receive_loop fuel w = Some (r, w').
Proof.
  induction fuel as [|fuel IH]; intros w Hlen; [lia|].
  rewrite receive_loop_unfold. unfold bind at 1. unfold websocket_next.
  destruct (incoming w) as [|[message|e] rest] eqn:Hi.
  - unfold ret. eauto.
  - unfold bind at 1.
    assert (Hpay : exists r,
               match message with
               | Text s => lift (PyStr.encode s)
               | Binary data => ret data
               end (set_incoming rest (record WebsocketNext w)) =
               Some (r, set_incoming rest (record WebsocketNext w))).
    { destruct message; unfold lift, ret; eauto. }
    destruct Hpay as [[data|e] ->]; [|eauto].
    unfold bind, logging_info_repr, writer_write, writer_drain, answer.
    cbn [drains record set_incoming].
    destruct (drains w) as [|[e|] ds]; eauto.
    all: apply IH; simpl in *; lia.
  - eauto.
Qed.

Lemma closing_run (w : world) :
  exists w',
    closing w = Some (match wait_closed w with
                      | None => Ok tt
                      | Some e => Err e
                      end, w') /\
    trace w' = trace w ++ [Log INFO "WebSocket connection handler exited";
                           WriterClose; WriterWaitClosed] /\
    incoming w' = incoming w /\ drains w' = drains w.
Proof.
  unfold closing, bind, logging_info, writer_close, writer_wait_closed, answer.
  cbn [wait_closed record].
  destruct (wait_closed w);
    (eexists; split; [reflexivity|]; cbn; rewrite <- !app_assoc; auto).
Qed.

Lemma ws_to_tcp_body_total :
  total (try_except
           (logging_info "Started forwarding from WS to TCP" ;;
            with_fuel (fun w => S (List.length (incoming w))) receive_loop)
           (fun e =>
              match e with
              | CancelledError | ConnectionClosed =>
                  Some (logging_warning "Error during WebSocket to TCP forwarding")
              | _ => None
              end)).
Proof.
  apply total_try_except.
  - apply total_bind; [intros w; unfold logging_info; eauto|intros _].
    intros w. unfold with_fuel. apply receive_loop_total. lia.
  - intros [] m [= <-]; intros w; unfold logging_warning; eauto.
Qed.

Lemma ws_to_tcp_body_evolves :
  respects (evolves ws_to_tcp_event)
    (try_except
       (logging_info "Started forwarding from WS to TCP" ;;
        with_fuel (fun w => S (List.length (incoming w))) receive_loop)
       (fun e =>
          match e with
          | CancelledError | ConnectionClosed =>
              Some (logging_warning "Error during WebSocket to TCP forwarding")
          | _ => None
          end)).
Proof.
  apply respects_try_except; [apply evolves_trans| |].
  - apply respects_bind; [apply evolves_trans| |intros _].
    + now apply evolves_logging_info.
    + apply respects_with_fuel. intros n. apply receive_loop_evolves.
  - intros [] m [= <-]; now apply evolves_logging_warning.
Qed.

(** Every run of [_forward_ws_to_tcp] ends, and ends with the three calls
    of its [finally] clause; it returns normally only when
    [wait_closed()] has. *)
Lemma _forward_ws_to_tcp_run (self : adapter) (w : world) :
  exists r w' evs,
    _forward_ws_to_tcp self w = Some (r, w') /\
    trace w' = trace w ++ evs ++
               [Log INFO "WebSocket connection handler exited";
                WriterClose; WriterWaitClosed] /\
    Forall ws_to_tcp_event evs /\
    (r = Ok tt -> wait_closed w = None).
Proof.
  unfold _forward_ws_to_tcp, try_finally.
  destruct (ws_to_tcp_body_total w) as (rb & w1 & Hb). rewrite Hb.
  apply ws_to_tcp_body_evolves in Hb.
  destruct Hb as ((evs & Ht & Hevs) & _ & Hwc & _).
  destruct (closing_run w1) as (w2 & Hc & Htr & _). fold closing. rewrite Hc.
  rewrite Hwc.
  destruct (wait_closed w) as [e|].
  - exists (Err e), w2, evs. rewrite Htr, Ht, <- app_assoc.
    repeat split; [assumption|discriminate].
  - exists rb, w2, evs. rewrite Htr, Ht, <- app_assoc.
    repeat split; auto.
Qed.

Lemma _forward_ws_to_tcp_total (self : adapter) :
  total (_forward_ws_to_tcp self).
Proof.
  intros w. destruct (_forward_ws_to_tcp_run self w) as (r & w' & _ & H & _).
  eauto.
Qed.

End WsToTcp.

(** ** What [_forward_ws_to_tcp] writes *)

Section WsToTcpWrites.

Import Session PyStr.

Lemma written_app (t1 t2 : list event) :
  written (t1 ++ t2) = written t1 ++ written t2.
Proof.
  induction t1 as [|e t1 IH]; [reflexivity|].
  destruct e; simpl; rewrite IH; reflexivity.
Qed.

Lemma utf8_of_scalar_value (cp : N) :
  is_scalar_value cp = true -> exists x, utf8_of_code_point cp = Some x.
Proof.
  unfold is_scalar_value, utf8_of_code_point. intros H.
  destruct (N.ltb_spec cp 0x80); [eauto|].
  destruct (N.ltb_spec cp 0x800); [eauto|].
  destruct (N.ltb_spec cp 0x10000).
  - destruct (N.leb_spec 0xD800 cp); destruct (N.leb_spec cp 0xDFFF);
      cbn [andb]; eauto.
    exfalso.
    destruct (N.ltb_spec cp 0xD800); [lia|].
    destruct (N.ltb_spec 0xDFFF cp); [lia|]. discriminate.
  - destruct (N.leb_spec cp 0x10FFFF); [eauto|].
    exfalso.
    destruct (N.ltb_spec cp 0xD800); [lia|].
    destruct (N.ltb_spec 0xDFFF cp); discriminate.
Qed.

(** On text a WebSocket frame can carry, [str.encode()] succeeds and is
    the UTF-8 encoding. *)
Lemma encode_well_formed (s : str) :
  forallb is_scalar_value s = true -> PyStr.encode s = Ok (utf8 s).
Proof.
  induction s as [|cp s IH]; [reflexivity|].
  cbn [forallb]. intros H. apply andb_prop in H as [Hcp Hs].
  destruct (utf8_of_scalar_value _ Hcp) as [x Hx].
  cbn [PyStr.encode utf8 flat_map]. rewrite Hx, (IH Hs). reflexivity.
Qed.

Lemma receive_loop_writes (messages : list ws_message) :
  forall fuel w,
    incoming w = map Ok messages -> drains w = [] ->
    Forall (fun m => well_formed m = true) messages ->
    List.length messages < fuel ->
    exists w',
      receive_loop fuel w = Some (Ok tt, w') /\
      written (trace w') =
      written (trace w) ++ map (fun m => payload m ++ CRLF) messages.
Proof.
  induction messages as [|m ms IH]; intros fuel w Hin Hdr Hwf Hlen;
    (destruct fuel as [|fuel]; [simpl in Hlen; lia|]);
    rewrite receive_loop_unfold; unfold bind at 1; unfold websocket_next;
    rewrite Hin; cbn [map].
  - eexists. split; [reflexivity|]. cbn [trace record].
    rewrite written_app. reflexivity.
  - inversion Hwf as [|? ? Hm Hms]; subst.
    set (w1 := set_incoming (map Ok ms) (record WebsocketNext w)).
    assert (Hpay : match m with
                   | Text s => lift (PyStr.encode s)
                   | Binary data => ret data
                   end w1 = Some (Ok (payload m), w1)).
    { destruct m as [s|data]; [|reflexivity].
      unfold lift. cbn [payload]. now rewrite (encode_well_formed _ Hm). }
    unfold bind at 1. rewrite Hpay.
    unfold bind at 1. unfold logging_info_repr.
    unfold bind at 1. unfold writer_write.
    unfold bind at 1. unfold writer_drain.
    cbn [drains record set_incoming w1]. rewrite Hdr.
    match goal with
    | |- exists w', receive_loop fuel ?w2 = _ /\ _ =>
        destruct (IH fuel w2) as (w' & Hrun & Hw)
    end; try assumption; try reflexivity.
    { simpl in Hlen. lia. }
    exists w'. split; [exact Hrun|]. rewrite Hw. subst w1.
    cbn [trace record set_incoming].
    rewrite !written_app. cbn [written]. rewrite !app_nil_r, <- !app_assoc.
    reflexivity.
Qed.

(** The bytes written by a whole run in which every drain succeeds: one
    write per message, its payload followed by the delimiter. *)
Lemma _forward_ws_to_tcp_writes (self : adapter) (w : world)
    (messages : list ws_message) :
  incoming w = map Ok messages -> drains w = [] ->
  Forall (fun m => well_formed m = true) messages ->
  exists r w',
    _forward_ws_to_tcp self w = Some (r, w') /\
    written (trace w') =
    written (trace w) ++ map (fun m => payload m ++ CRLF) messages.
Proof.
  intros Hin Hdr Hwf.
  unfold _forward_ws_to_tcp, try_finally, try_except.
  unfold bind at 1. unfold logging_info at 1. unfold with_fuel.
  set (w1 := record (Log INFO "Started forwarding from WS to TCP") w).
  destruct (receive_loop_writes messages (S (List.length (incoming w1))) w1)
    as (w2 & Hrun & Hw); try assumption.
  { cbn. rewrite Hin, length_map. lia. }
  rewrite Hrun.
  destruct (closing_run w2) as (w3 & Hc & Htr & _). fold closing. rewrite Hc.
  assert (Hfinal : written (trace w3) =
                   written (trace w) ++ map (fun m => payload m ++ CRLF) messages).
  { rewrite Htr, written_app, Hw. cbn [trace record w1 written].
    rewrite written_app. cbn [written]. now rewrite !app_nil_r. }
  destruct (wait_closed w2); eauto.
Qed.

End WsToTcpWrites.

(** ** What [_forward_ws_to_tcp] writes, in every run *)

Section WsToTcpEveryRun.

Import Session PyStr.

Lemma map_Ok_inj {A} (l1 l2 : list A) :
  map (@Ok A) l1 = map (@Ok A) l2 -> l1 = l2.
Proof.
  revert l2. induction l1 as [|x l1 IH]; intros [|y l2] H;
    try discriminate; [reflexivity|].
  injection H as -> H. f_equal. now apply IH.
Qed.

Lemma map_Ok_app_inv {A} (l1 l2 : list A) (t : list (outcome A)) :
  map (@Ok A) l1 = map (@Ok A) l2 ++ t ->
  exists l3, l1 = l2 ++ l3 /\ t = map (@Ok A) l3.
Proof.
  revert l1. induction l2 as [|y l2 IH]; intros l1 H.
  - exists l1. split; [reflexivity|]. symmetry. exact H.
  - destruct l1 as [|x l1]; [discriminate|].
    injection H as -> H. destruct (IH l1 H) as (l3 & -> & ->).
    exists l3. split; reflexivity.
Qed.

Lemma nth_error_tl {A} (l : list A) (k : nat) :
  nth_error l (S k) = nth_error (tl l) k.
Proof. destruct l; [now destruct k|reflexivity]. Qed.

(** When [str.encode()] returns, it returns the UTF-8 encoding. *)
Lemma encode_Ok_utf8 (s : str) (x : bytes) :
  PyStr.encode s = Ok x -> x = utf8 s.
Proof.
  revert x. induction s as [|cp s IH]; intros x.
  - intros [= <-]. reflexivity.
  - cbn [PyStr.encode utf8 flat_map].
    destruct (utf8_of_code_point cp) as [y|]; [|discriminate].
    destruct (PyStr.encode s) as [z|e]; [|discriminate].
    intros [= <-]. now rewrite (IH z eq_refl).
Qed.

(** The loop of lines 96-101, whatever the iterator yields and the
    drains answer: the messages it took and wrote, [received], are a
    prefix of what the iterator held, each was written, payload then
    CR LF, and the loop went on until one of the four ends of
    [iteration_ended]. *)
Lemma receive_loop_run (fuel : nat) :
  forall w,
    List.length (incoming w) < fuel ->
    exists r w' received tail,
      receive_loop fuel w = Some (r, w') /\
      incoming w = map Ok received ++ tail /\
      written (trace w') =
        written (trace w) ++ map (fun m => payload m ++ CRLF) received /\
      (forall s, In (Text s) received -> PyStr.encode s = Ok (utf8 s)) /\
      iteration_ended w w' received tail.
Proof.
  induction fuel as [|fuel IH]; intros w Hlen; [lia|].
  assert (Hstep : forall w2 m rest,
            incoming w = Ok m :: rest -> incoming w2 = rest ->
            written (trace w2) = written (trace w) ++ [payload m ++ CRLF] ->
            drains w2 = tl (drains w) ->
            (forall s, m = Text s -> PyStr.encode s = Ok (utf8 s)) ->
            exists r w' received tail,
              receive_loop fuel w2 = Some (r, w') /\
              incoming w = map Ok received ++ tail /\
              written (trace w') =
                written (trace w) ++
                map (fun m => payload m ++ CRLF) received /\
              (forall s, In (Text s) received ->
                         PyStr.encode s = Ok (utf8 s)) /\
              iteration_ended w w' received tail).
  { intros w2 m rest Hin Hin2 Hw2 Hdr2 Henc.
    destruct (IH w2)
      as (r & w' & received & tail & Hrun & Hi & Hw & He & Hend).
    { rewrite Hin2. rewrite Hin in Hlen. simpl in Hlen. lia. }
    exists r, w', (m :: received), tail.
    split; [exact Hrun|]. split; [|split; [|split]].
    - rewrite Hin. cbn [map app]. f_equal. rewrite <- Hin2. exact Hi.
    - rewrite Hw, Hw2, <- app_assoc. reflexivity.
    - intros s [->|Hs]; [now apply Henc|now apply He].
    - destruct Hend as [H1 | [[e H2] | [(s & e & H3) | (e & H4 & H5 & H6)]]].
      + left. exact H1.
      + right. left. exists e. exact H2.
      + right. right. left. exists s, e. exact H3.
      + right. right. right. exists e. split; [exact H4|].
        split; [discriminate|].
        destruct received as [|m' received]; [contradiction|].
        replace (List.length (m :: m' :: received) - 1)
          with (S (List.length (m' :: received) - 1))
          by (cbn [List.length]; lia).
        rewrite nth_error_tl, <- Hdr2. exact H6. }
  rewrite receive_loop_unfold. unfold bind at 1. unfold websocket_next.
  destruct (incoming w) as [|[m|e] rest] eqn:Hin.
  - exists (Ok tt), (record WebsocketNext w), [], [].
    split; [reflexivity|]. split; [reflexivity|]. split; [|split].
    + cbn [trace record]. rewrite written_app. reflexivity.
    + intros s [].
    + left. split; [reflexivity|]. exact Hin.
  - assert (Hwrite : forall x,
              x = payload m ->
              (forall s, m = Text s -> PyStr.encode s = Ok (utf8 s)) ->
              exists r w' received tail,
                (logging_info_repr "WS -> TCP: " x ;;
                 writer_write (x ++ CRLF) ;;
                 writer_drain ;;
                 receive_loop fuel)
                  (set_incoming rest (record WebsocketNext w)) =
                  Some (r, w') /\
                Ok m :: rest = map Ok received ++ tail /\
                written (trace w') =
                  written (trace w) ++
                  map (fun m => payload m ++ CRLF) received /\
                (forall s, In (Text s) received ->
                           PyStr.encode s = Ok (utf8 s)) /\
                iteration_ended w w' received tail).
    { intros x -> Henc.
      unfold bind at 1. unfold logging_info_repr.
      unfold bind at 1. unfold writer_write.
      unfold bind at 1. unfold writer_drain, answer.
      cbn [drains record set_incoming].
      destruct (drains w) as [|[e|] ds] eqn:Hdr.
      - apply (Hstep _ m rest eq_refl); [reflexivity| | |exact Henc].
        + cbn [trace record set_incoming]. rewrite !written_app.
          cbn [written]. now rewrite !app_nil_r.
        + cbn [drains record set_incoming tl]. exact Hdr.
      - eexists (Err e), _, [m], rest.
        split; [reflexivity|]. split; [reflexivity|]. split; [|split].
        + cbn [trace record set_incoming set_drains map].
          rewrite !written_app. cbn [written]. now rewrite !app_nil_r.
        + intros s [->|[]]. now apply Henc.
        + right. right. right. exists e. split; [reflexivity|].
          split; [discriminate|]. rewrite Hdr. reflexivity.
      - apply (Hstep _ m rest eq_refl); [reflexivity| | |exact Henc].
        + cbn [trace record set_incoming set_drains].
          rewrite !written_app. cbn [written]. now rewrite !app_nil_r.
        + reflexivity. }
    unfold bind at 1. destruct m as [s|data].
    + unfold lift. destruct (PyStr.encode s) as [x|e] eqn:Henc.
      * apply Hwrite.
        -- exact (encode_Ok_utf8 s x Henc).
        -- intros s' [= <-]. rewrite Henc. f_equal.
           exact (encode_Ok_utf8 s x Henc).
      * eexists (Err e), _, [], (Ok (Text s) :: rest).
        split; [reflexivity|]. split; [reflexivity|]. split; [|split].
        -- cbn [trace record set_incoming map]. rewrite written_app.
           reflexivity.
        -- intros s' [].
        -- right. right. left. exists s, e. split; [reflexivity|exact Henc].
    + unfold ret at 1. apply Hwrite; [reflexivity|discriminate].
  - eexists (Err e), _, [], (Err e :: rest).
    split; [reflexivity|]. split; [reflexivity|]. split; [|split].
    + cbn [trace record set_incoming map]. rewrite written_app. reflexivity.
    + intros s [].
    + right. left. exists e. reflexivity.
Qed.

(** The same for a whole run of [_forward_ws_to_tcp]: its [except] and
    [finally] clauses write nothing and take nothing more. *)
Lemma _forward_ws_to_tcp_every_run (self : adapter) (w : world) :
  exists r w' received tail,
    _forward_ws_to_tcp self w = Some (r, w') /\
    incoming w = map Ok received ++ tail /\
    written (trace w') =
      written (trace w) ++ map (fun m => payload m ++ CRLF) received /\
    (forall s, In (Text s) received -> PyStr.encode s = Ok (utf8 s)) /\
    iteration_ended w w' received tail.
Proof.
  unfold _forward_ws_to_tcp, try_finally, try_except.
  unfold bind at 1. unfold logging_info at 1. unfold with_fuel.
  set (w1 := record (Log INFO "Started forwarding from WS to TCP") w).
  destruct (receive_loop_run (S (List.length (incoming w1))) w1)
    as (rl & w2 & received & tail & Hrun & Hi & Hw & Henc & Hend);
    [lia|].
  rewrite Hrun.
  assert (Hw1 : written (trace w1) = written (trace w)).
  { subst w1. cbn [trace record]. rewrite written_app. cbn.
    now rewrite app_nil_r. }
  rewrite Hw1 in Hw.
  assert (Hi' : incoming w = map Ok received ++ tail) by exact Hi.
  assert (Hend' : iteration_ended w w2 received tail) by exact Hend.
  clear Hi Hend Hrun Hw1. clearbody w1.
  assert (Hfinish : forall (rb : outcome unit) w3,
            written (trace w3) = written (trace w2) ->
            incoming w3 = incoming w2 ->
            exists r w' received tail,
              match closing w3 with
              | Some (Ok _, s'') => Some (rb, s'')
              | Some (Err e0, s'') => Some (Err e0, s'')
              | None => None
              end = Some (r, w') /\
              incoming w = map Ok received ++ tail /\
              written (trace w') =
                written (trace w) ++
                map (fun m => payload m ++ CRLF) received /\
              (forall s, In (Text s) received ->
                         PyStr.encode s = Ok (utf8 s)) /\
              iteration_ended w w' received tail).
  { intros rb w3 Hw3 Hi3.
    destruct (closing_run w3) as (w4 & Hc & Htr & Hi4 & _). rewrite Hc.
    assert (Hw4 : written (trace w4) =
                  written (trace w) ++
                  map (fun m => payload m ++ CRLF) received).
    { rewrite Htr, written_app, Hw3, Hw. cbn. now rewrite app_nil_r. }
    assert (Hend4 : iteration_ended w w4 received tail).
    { unfold iteration_ended in *. rewrite Hi4, Hi3. exact Hend'. }
    destruct (wait_closed w3) as [e0|].
    - exists (Err e0), w4, received, tail. auto.
    - exists rb, w4, received, tail. auto. }
  fold closing.
  destruct rl as [[]|e]; [apply Hfinish; reflexivity|].
  destruct e; unfold logging_warning; apply Hfinish; try reflexivity.
  all: cbn [trace record]; rewrite written_app; cbn; now rewrite app_nil_r.
Qed.

End WsToTcpEveryRun.

(** ** The forwarders and the handler: the properties claimed *)

Section SessionProperties.

Import Session PyStr.

(** C7 -- WS-to-TCP payload normalization and delimiter append.  In
    every run of [_forward_ws_to_tcp], whatever the iterator yields and
    however the run ends, the messages received are a prefix of what the
    iterator held, taken until the iterator is used up or raises,
    [str.encode()] raises, or a drain raises; a text message among them
    was turned into bytes by [str.encode()], which gave its UTF-8
    encoding (as it does for every text a WebSocket frame can carry); a
    binary message was taken as it is; and what was written to the TCP
    stream is, message by message and in order, that payload followed by
    exactly CR LF.  In a session that ends cleanly every message is
    received; for the text ["Hello"] the write is [b'Hello\r\n']. *)
Theorem ws_to_tcp_payload_and_delimiter (self : adapter) (w : world) :
  (forall s, forallb is_scalar_value s = true ->
             PyStr.encode s = Ok (utf8 s)) /\
  (forall data, payload (Binary data) = data) /\
  exists r w' received tail,
    _forward_ws_to_tcp self w = Some (r, w') /\
    incoming w = map Ok received ++ tail /\
    iteration_ended w w' received tail /\
    (forall s, In (Text s) received -> PyStr.encode s = Ok (utf8 s)) /\
    written (trace w') =
      written (trace w) ++ map (fun m => payload m ++ CRLF) received /\
    (forall messages,
       incoming w = map Ok messages -> drains w = [] ->
       Forall (fun m => well_formed m = true) messages ->
       received = messages).
Proof.
  split; [exact encode_well_formed|]. split; [reflexivity|].
  destruct (_forward_ws_to_tcp_every_run self w)
    as (r & w' & received & tail & Hrun & Hin & Hw & Henc & Hend).
  exists r, w', received, tail.
  split; [exact Hrun|]. split; [exact Hin|]. split; [exact Hend|].
  split; [exact Henc|]. split; [exact Hw|].
  intros messages Hm Hdr Hwf. rewrite Hm in Hin.
  destruct (map_Ok_app_inv _ _ _ Hin) as (rest & -> & ->).
  destruct Hend as [[H1 _] | [[e H2] | [(s & e & H3 & H4) | (e & _ & _ & H5)]]].
  - destruct rest; [|discriminate]. now rewrite app_nil_r.
  - destruct rest; discriminate.
  - destruct rest as [|m rest]; [discriminate|]. injection H3 as -> _.
    apply Forall_app in Hwf as [_ Hwf]. inversion Hwf as [|? ? Hs _]; subst.
    rewrite (encode_well_formed s Hs) in H4. discriminate.
  - rewrite Hdr in H5. destruct (List.length received - 1); discriminate.
Qed.

Lemma ws_to_tcp_payload_and_delimiter_witness :
  exists r w',
    _forward_ws_to_tcp test_adapter (client_sends [Text (of_ascii "Hello")]) =
      Some (r, w') /\
    written (trace w') = [b "Hello" ++ CRLF].
Proof.
  destruct (ws_to_tcp_payload_and_delimiter test_adapter
              (client_sends [Text (of_ascii "Hello")]))
    as (_ & _ & r & w' & received & tail & Hrun & _ & _ & _ & Hw & Hall).
  exists r, w'. split; [exact Hrun|].
  rewrite Hw.
  rewrite (Hall [Text (of_ascii "Hello")] eq_refl eq_refl).
  - reflexivity.
  - constructor; [reflexivity|constructor].
Defined.

(** C10 -- A zero-length message still puts the delimiter on the wire.
    In every run of [_forward_ws_to_tcp], however it ends, when one of
    the messages received is the empty text or the empty binary message,
    the write made for it is exactly [b'\r\n'], in its place between the
    writes for the messages received before and after it.  So it is for
    a client that sends the empty text and is then lost. *)
Theorem empty_message_writes_delimiter (self : adapter) (w : world) :
  exists r w' received tail,
    _forward_ws_to_tcp self w = Some (r, w') /\
    incoming w = map Ok received ++ tail /\
    iteration_ended w w' received tail /\
    forall before m after,
      received = before ++ m :: after ->
      m = Text [] \/ m = Binary [] ->
      written (trace w') =
        written (trace w) ++
        map (fun m => payload m ++ CRLF) before ++
        CRLF :: map (fun m => payload m ++ CRLF) after.
Proof.
  destruct (_forward_ws_to_tcp_every_run self w)
    as (r & w' & received & tail & Hrun & Hin & Hw & _ & Hend).
  exists r, w', received, tail.
  split; [exact Hrun|]. split; [exact Hin|]. split; [exact Hend|].
  intros before m after -> Hm. rewrite Hw, map_app. cbn [map].
  destruct Hm as [-> | ->]; reflexivity.
Qed.

Lemma empty_message_writes_delimiter_witness :
  exists r w',
    _forward_ws_to_tcp test_adapter empty_then_lost = Some (r, w') /\
    written (trace w') = [CRLF].
Proof.
  destruct (empty_message_writes_delimiter test_adapter empty_then_lost)
    as (r & w' & received & tail & Hrun & Hin & Hend & Hw).
  exists r, w'. split; [exact Hrun|].
  vm_compute in Hrun. injection Hrun as _ <-.
  cbn [incoming empty_then_lost] in Hin.
  assert (Hreceived : received = [] ++ Text [] :: []).
  { destruct received as [|m [|m' received]].
    - destruct Hend as [[H _] | [[e H] | [(s & e & H & He) | (e & _ & H & _)]]].
      + subst tail. discriminate.
      + subst tail. discriminate.
      + subst tail. injection Hin as <-. discriminate.
      + now contradiction H.
    - injection Hin as <- _. reflexivity.
    - discriminate. }
  exact (Hw [] (Text []) [] Hreceived (or_introl eq_refl)).
Defined.

(** C8 -- Transport-close ownership.  Every run of [_forward_ws_to_tcp],
    whatever the transports answer (the iteration ending, the channel
    closed, a cancellation, any other exception), ends with
    [writer.close()] followed by [await writer.wait_closed()], makes no
    such call before, and returns normally only if that wait completed;
    no run of [_forward_tcp_to_ws] calls [close] or [wait_closed]. *)
Theorem transport_close_ownership (self : adapter) (w : world) :
  (exists r w' evs,
     _forward_ws_to_tcp self w = Some (r, w') /\
     trace w' = trace w ++ evs ++
                [Log INFO "WebSocket connection handler exited";
                 WriterClose; WriterWaitClosed] /\
     Forall (fun e => is_transport_close e = false) evs /\
     (r = Ok tt -> wait_closed w = None)) /\
  (exists r w' evs,
     _forward_tcp_to_ws self w = Some (r, w') /\
     trace w' = trace w ++ evs /\
     Forall (fun e => is_transport_close e = false) evs).
Proof.
  split.
  - destruct (_forward_ws_to_tcp_run self w) as (r & w' & evs & H & Ht & He & Hr).
    exists r, w', evs. repeat split; try assumption.
    eapply Forall_impl; [|exact He]. intros []; simpl; tauto.
  - destruct (_forward_tcp_to_ws_total self w) as (r & w' & H).
    pose proof (_forward_tcp_to_ws_evolves self w r w' H) as ((evs & Ht & He) & _).
    exists r, w', evs. repeat split; try assumption.
    eapply Forall_impl; [|exact He]. intros []; simpl; tauto.
Qed.

Lemma transport_close_ownership_witness :
  exists r w' evs,
    _forward_ws_to_tcp test_adapter (client_sends [Text (of_ascii "Hello")]) =
      Some (r, w') /\
    trace w' = evs ++ [Log INFO "WebSocket connection handler exited";
                       WriterClose; WriterWaitClosed] /\
    Forall (fun e => is_transport_close e = false) evs.
Proof.
  destruct (transport_close_ownership test_adapter
              (client_sends [Text (of_ascii "Hello")]))
    as [(r & w' & evs & Hrun & Ht & Hevs & _) _].
  exists r, w', evs. auto.
Defined.

End SessionProperties.

Section HandlerProperties.

Import Session.

Lemma gather_total (t1 t2 : M world unit) :
  total t1 -> total t2 -> total (gather t1 t2).
Proof.
  intros H1 H2 w. unfold gather.
  destruct (H1 w) as (r1 & w1 & ->). destruct (H2 w1) as (r2 & w2 & ->).
  destruct (cancel_gather w2); [eauto|].
  destruct r1 as [[]|e1], r2 as [[]|e2]; eauto.
Qed.

(** What the [except] clauses and the [finally] clause of
    [_handle_ws_connection] do with the outcome of its body. *)
Lemma handler_clauses (body : M world unit) (w w1 : world) (r : outcome unit) :
  body w = Some (r, w1) ->
  exists w',
    try_finally
      (try_except body
         (fun e =>
            match e with
            | CancelledError =>
                Some (logging_warning
                        "WebSocket connection task cancelled unexpectedly")
            | _ =>
                if is_Exception e
                then Some (logging_error
                             "Error in WebSocket connection handling: " e)
                else None
            end))
      (logging_info "WebSocket client disconnected") w = Some (Ok tt, w') /\
    trace w' = trace w1 ++
               match r with
               | Ok _ => []
               | Err e => [handler_log e]
               end ++ [Log INFO "WebSocket client disconnected"].
Proof.
  intros Hb. unfold try_finally, try_except. rewrite Hb.
  destruct r as [[]|e].
  - eexists. split; [reflexivity|]. reflexivity.
  - destruct e; cbn; eexists; (split; [reflexivity|]);
      cbn; rewrite <- app_assoc; reflexivity.
Qed.

(** The forwarders record none of the handler's events. *)
Lemma send_frames_forwarder_calls (fuel : nat) :
  forall buffer, respects (evolves forwarder_call) (send_frames fuel buffer).
Proof.
  induction fuel as [|fuel IH]; intros buffer.
  - simpl. destruct (bytes_in CRLF buffer).
    + apply respects_stuck.
    + apply respects_ret, evolves_refl.
  - destruct (bytes_in CRLF buffer) eqn:Hin.
    + destruct (bytes_in_crlf_split _ Hin) as (f & r & -> & Hf).
      rewrite (send_frames_step _ _ _ Hf).
      apply respects_bind; [apply evolves_trans| |intros _].
      { apply evolves_logging_info_repr. reflexivity. }
      apply respects_bind; [apply evolves_trans| |intros [|]].
      * apply send_attempt_respects.
        -- apply evolves_refl.
        -- apply evolves_trans.
        -- apply evolves_websocket_send. reflexivity.
        -- apply evolves_logging_warning. reflexivity.
      * apply IH.
      * apply respects_ret, evolves_refl.
    + rewrite (send_frames_stop _ _ Hin). apply respects_ret, evolves_refl.
Qed.

Lemma read_loop_forwarder_calls (self : adapter) (fuel : nat) :
  forall buffer,
    respects (evolves forwarder_call) (read_loop self fuel buffer).
Proof.
  induction fuel as [|fuel IH]; intros buffer.
  - apply respects_stuck.
  - rewrite read_loop_unfold.
    apply respects_bind; [apply evolves_trans| |intros [|c data]].
    + apply evolves_reader_read. reflexivity.
    + apply evolves_logging_info. reflexivity.
    + apply respects_bind; [apply evolves_trans| |intros buffer'].
      * apply send_frames_forwarder_calls.
      * apply IH.
Qed.

Lemma _forward_tcp_to_ws_forwarder_calls (self : adapter) :
  respects (evolves forwarder_call) (_forward_tcp_to_ws self).
Proof.
  unfold _forward_tcp_to_ws.
  apply respects_try_finally; [apply evolves_trans| |].
  - apply respects_try_except; [apply evolves_trans| |].
    + apply respects_bind; [apply evolves_trans| |intros _].
      * apply evolves_logging_info. reflexivity.
      * apply respects_with_fuel. intros n. apply read_loop_forwarder_calls.
    + intros [] m [= <-]; apply evolves_logging_warning; reflexivity.
  - apply evolves_logging_info. reflexivity.
Qed.

Lemma receive_loop_forwarder_calls (fuel : nat) :
  respects (evolves forwarder_call) (receive_loop fuel).
Proof.
  induction fuel as [|fuel IH].
  - apply respects_stuck.
  - rewrite receive_loop_unfold.
    apply respects_bind; [apply evolves_trans| |intros [message|]].
    + apply evolves_websocket_next. reflexivity.
    + apply respects_bind; [apply evolves_trans| |intros data].
      { destruct message; [apply evolves_lift|].
        apply respects_ret, evolves_refl. }
      apply respects_bind; [apply evolves_trans| |intros _].
      { apply evolves_logging_info_repr. reflexivity. }
      apply respects_bind; [apply evolves_trans| |intros _].
      { apply evolves_writer_write. reflexivity. }
      apply respects_bind; [apply evolves_trans| |intros _].
      { apply evolves_writer_drain. reflexivity. }
      exact IH.
    + apply respects_ret, evolves_refl.
Qed.

Lemma _forward_ws_to_tcp_forwarder_calls (self : adapter) :
  respects (evolves forwarder_call) (_forward_ws_to_tcp self).
Proof.
  unfold _forward_ws_to_tcp.
  apply respects_try_finally; [apply evolves_trans| |].
  - apply respects_try_except; [apply evolves_trans| |].
    + apply respects_bind; [apply evolves_trans| |intros _].
      * apply evolves_logging_info. reflexivity.
      * apply respects_with_fuel. intros n. apply receive_loop_forwarder_calls.
    + intros [] m [= <-]; apply evolves_logging_warning; reflexivity.
  - apply respects_bind; [apply evolves_trans| |intros _].
    + apply evolves_logging_info. reflexivity.
    + apply respects_bind; [apply evolves_trans| |intros _].
      * intros w r w' H. run_call H. apply evolves_record. reflexivity.
      * intros w r w' H. run_call H; apply evolves_record; reflexivity.
Qed.

Lemma gather_respects (R : world -> world -> Prop) (t1 t2 : M world unit) :
  (forall w1 w2 w3, R w1 w2 -> R w2 w3 -> R w1 w3) ->
  respects R t1 -> respects R t2 -> respects R (gather t1 t2).
Proof.
  intros Rt H1 H2 w r w'. unfold gather.
  destruct (t1 w) as [[r1 w1]|] eqn:E1; [|discriminate].
  destruct (t2 w1) as [[r2 w2]|] eqn:E2; [|discriminate].
  intros H.
  assert (Hw : w' = w2).
  { destruct (cancel_gather w2); [now injection H|].
    destruct r1, r2; now injection H. }
  subst w'. exact (Rt _ _ _ (H1 _ _ _ E1) (H2 _ _ _ E2)).
Qed.

Lemma filter_forwarder_calls (evs : list event) :
  Forall forwarder_call evs -> filter is_handler_event evs = [].
Proof.
  induction 1 as [|e evs He _ IH]; [reflexivity|].
  cbn [filter]. now rewrite He.
Qed.

Lemma handler_log_is_handler_event (e : exn) :
  is_handler_event (handler_log e) = true.
Proof. destruct e; reflexivity. Qed.

(** C9, as amended -- Session-scoped error containment.  Whatever the
    transports do, [_handle_ws_connection] ends and returns normally: no
    exception leaves it.  When the dial fails, the handler logs the
    failure and returns without creating a task or touching either
    transport.  When the dial succeeds, what the handler itself records
    is its first log record, the dial, the creation of the two tasks
    and, when [gather] raises -- the first exception to come out of a
    forwarder -- the log record of that one exception, before its last
    log record. *)
Theorem session_error_containment (self : adapter) (w : world) :
  exists w',
    _handle_ws_connection self w = Some (Ok tt, w') /\
    (forall e, dial w = Some e ->
       trace w' =
       trace w ++ [Log INFO "New WebSocket connection established.";
                   OpenConnection (tcp_host self) (tcp_port self);
                   handler_log e;
                   Log INFO "WebSocket client disconnected"]) /\
    (dial w = None ->
     exists r w1,
       gather (_forward_tcp_to_ws self) (_forward_ws_to_tcp self)
              (session_started self w) = Some (r, w1) /\
       filter is_handler_event (trace w') =
       filter is_handler_event (trace w) ++
       [Log INFO "New WebSocket connection established.";
        OpenConnection (tcp_host self) (tcp_port self);
        CreateTask TcpToWs; CreateTask WsToTcp] ++
       match r with
       | Ok _ => []
       | Err e => [handler_log e]
       end ++ [Log INFO "WebSocket client disconnected"]).
Proof.
  destruct (gather_total _ _ (_forward_tcp_to_ws_total self)
              (_forward_ws_to_tcp_total self) (session_started self w))
    as (r & w1 & Hg).
  destruct (dial w) as [e|] eqn:Hd.
  - edestruct (handler_clauses
                 (logging_info "New WebSocket connection established." ;;
                  open_connection (tcp_host self) (tcp_port self) ;;
                  create_task TcpToWs ;;
                  create_task WsToTcp ;;
                  gather (_forward_tcp_to_ws self) (_forward_ws_to_tcp self))
                 w) as (w' & Hrun & Ht).
    { unfold bind at 1. unfold logging_info. unfold bind at 1.
      unfold open_connection, answer. cbn [dial record]. rewrite Hd.
      reflexivity. }
    exists w'. split; [exact Hrun|]. split; [|discriminate].
    intros e' [= <-]. rewrite Ht. cbn [trace record].
    rewrite <- !app_assoc. reflexivity.
  - edestruct (handler_clauses
                 (logging_info "New WebSocket connection established." ;;
                  open_connection (tcp_host self) (tcp_port self) ;;
                  create_task TcpToWs ;;
                  create_task WsToTcp ;;
                  gather (_forward_tcp_to_ws self) (_forward_ws_to_tcp self))
                 w) as (w' & Hrun & Ht).
    { unfold bind at 1. unfold logging_info. unfold bind at 1.
      unfold open_connection, answer. cbn [dial record]. rewrite Hd.
      unfold bind at 1. unfold create_task at 1.
      unfold bind at 1. unfold create_task at 1.
      exact Hg. }
    exists w'. split; [exact Hrun|]. split; [discriminate|].
    intros _. exists r, w1. split; [exact Hg|].
    destruct (gather_respects (evolves forwarder_call) _ _
                (evolves_trans forwarder_call)
                (_forward_tcp_to_ws_forwarder_calls self)
                (_forward_ws_to_tcp_forwarder_calls self) _ _ _ Hg)
      as ((evs & Hevs & Hcalls) & _).
    rewrite Ht, Hevs. cbn [session_started trace record].
    rewrite !filter_app, (filter_forwarder_calls evs Hcalls).
    rewrite <- !app_assoc. cbn [app filter is_handler_event].
    replace (filter is_handler_event
               match r with
               | Ok _ => []
               | Err e => [handler_log e]
               end)
      with (match r with
            | Ok _ => []
            | Err e => [handler_log e]
            end).
    + reflexivity.
    + destruct r as [[]|e]; [reflexivity|].
      cbn [filter]. now rewrite handler_log_is_handler_event.
Qed.

Lemma session_error_containment_witness :
  dial (dial_fails (OSError "Connection refused")) =
    Some (OSError "Connection refused") /\
  exists w',
    _handle_ws_connection test_adapter
      (dial_fails (OSError "Connection refused")) = Some (Ok tt, w') /\
    trace w' = [Log INFO "New WebSocket connection established.";
                OpenConnection "localhost" 4242;
                LogExn ERROR "Error in WebSocket connection handling: "
                       (OSError "Connection refused");
                Log INFO "WebSocket client disconnected"].
Proof.
  split; [reflexivity|].
  destruct (session_error_containment test_adapter
              (dial_fails (OSError "Connection refused")))
    as (w' & Hrun & Hdial & _).
  exists w'. split; [exact Hrun|].
  exact (Hdial (OSError "Connection refused") eq_refl).
Defined.

(** C9 as stated fails when both forwarders end with an unexpected
    error: [gather] raises the first one only, so the handler logs the
    [OSError] of the TCP-to-WS task and returns; the [OSError] that
    comes out of the WS-to-TCP task is logged nowhere. *)
Lemma second_forwarder_error_not_logged :
  exists w1 w2 w',
    _forward_tcp_to_ws test_adapter
      (session_started test_adapter both_forwarders_fail) =
      Some (Err (OSError "Connection reset by peer"), w1) /\
    _forward_ws_to_tcp test_adapter w1 =
      Some (Err (OSError "Broken pipe"), w2) /\
    _handle_ws_connection test_adapter both_forwarders_fail =
      Some (Ok tt, w') /\
    filter is_exception_log (trace w') =
      [LogExn ERROR "Error in WebSocket connection handling: "
              (OSError "Connection reset by peer")].
Proof.
  do 3 eexists. split; [vm_compute; reflexivity|].
  split; [vm_compute; reflexivity|].
  split; [vm_compute; reflexivity|]. reflexivity.
Qed.

(** C2, at the failing input: the client is gone, so the send of the
    first frame raises [ConnectionClosed]; the forwarder nevertheless
    reads again, attempts the send of the next frame, and reads a third
    time before it returns (normally) at end of file. *)
Theorem tcp_to_ws_goes_on_after_closed_send :
  exists w',
    _forward_tcp_to_ws test_adapter closed_client_world = Some (Ok tt, w') /\
    filter is_forwarding_io (trace w') =
    [ReaderRead 1024; WebsocketSend (b "a");
     ReaderRead 1024; WebsocketSend (b "b");
     ReaderRead 1024].
Proof.
  eexists. split; [vm_compute; reflexivity|]. reflexivity.
Qed.

End HandlerProperties.

(** ** The life cycle: stores *)

Section Stores.

Import Lifecycle.

Lemma nth_error_set_nth {A} (i j : nat) (x : A) (l : list A) :
  nth_error (set_nth i x l) j =
  if Nat.eqb j i then option_map (fun _ => x) (nth_error l j)
  else nth_error l j.
Proof.
  revert i j. induction l as [|a l IH]; intros i j.
  - destruct j, i; simpl; try reflexivity. now destruct (Nat.eqb j i).
  - destruct i as [|i], j as [|j]; try reflexivity. simpl. apply IH.
Qed.

Lemma nth_error_set_nth_eq {A} (i : nat) (x y : A) (l : list A) :
  nth_error l i = Some y -> nth_error (set_nth i x l) i = Some x.
Proof. intros H. now rewrite nth_error_set_nth, Nat.eqb_refl, H. Qed.

Lemma nth_error_set_nth_inv {A} (i j : nat) (x y : A) (l : list A) :
  nth_error (set_nth i x l) j = Some y ->
  (j = i /\ y = x) \/ (j <> i /\ nth_error l j = Some y).
Proof.
  rewrite nth_error_set_nth. destruct (Nat.eqb_spec j i) as [->|Hne].
  - destruct (nth_error l i); [|discriminate]. intros [= <-]. now left.
  - intros H. now right.
Qed.

Lemma nth_error_snoc {A} (l : list A) (x : A) :
  nth_error (l ++ [x]) (List.length l) = Some x.
Proof. rewrite nth_error_app2, Nat.sub_diag by lia. reflexivity. Qed.

Lemma nth_error_snoc_inv {A} (l : list A) (x y : A) (j : nat) :
  nth_error (l ++ [x]) j = Some y ->
  (j = List.length l /\ y = x) \/ (j < List.length l /\ nth_error l j = Some y).
Proof.
  destruct (Nat.lt_ge_cases j (List.length l)) as [Hlt|Hge].
  - rewrite nth_error_app1 by exact Hlt. now right.
  - rewrite nth_error_app2 by exact Hge.
    destruct (j - List.length l) as [|k] eqn:Hk.
    + intros [= <-]. left. split; [lia|reflexivity].
    + destruct k; discriminate.
Qed.

Lemma nth_error_lt {A} (l : list A) (j : nat) (y : A) :
  nth_error l j = Some y -> j < List.length l.
Proof. intros H. apply nth_error_Some. congruence. Qed.

(** Counting the elements of a store that satisfy a test. *)
Lemma filter_length_0 {A} (p : A -> bool) (l : list A) :
  (forall j y, nth_error l j = Some y -> p y = false) ->
  List.length (filter p l) = 0.
Proof.
  induction l as [|x l IH]; intros H; [reflexivity|].
  simpl. rewrite (H 0 x eq_refl). apply IH.
  intros j y Hj. exact (H (S j) y Hj).
Qed.

Lemma filter_length_1 {A} (p : A -> bool) (l : list A) (i : nat) (x : A) :
  nth_error l i = Some x -> p x = true ->
  (forall j y, nth_error l j = Some y -> p y = true -> j = i) ->
  List.length (filter p l) = 1.
Proof.
  revert i. induction l as [|a l IH]; intros i Hi Hp Huniq.
  - destruct i; discriminate.
  - simpl. destruct (p a) eqn:Hpa.
    + simpl. f_equal. apply filter_length_0. intros j y Hj.
      destruct (p y) eqn:Hpy; [|reflexivity].
      pose proof (Huniq (S j) y Hj Hpy) as H1.
      pose proof (Huniq 0 a eq_refl Hpa) as H0. congruence.
    + destruct i as [|i]; [simpl in Hi; congruence|].
      apply (IH i Hi Hp). intros j y Hj Hpy.
      pose proof (Huniq (S j) y Hj Hpy). congruence.
Qed.

Lemma no_listening (ss : list server_state) :
  (forall s, nth_error ss s <> Some Listening) ->
  List.length (filter is_listening ss) = 0.
Proof.
  intros H. apply filter_length_0. intros j [|] Hj; [|reflexivity].
  exfalso. exact (H j Hj).
Qed.

Lemma one_listening (ss : list server_state) (s : nat) :
  nth_error ss s = Some Listening ->
  (forall s', nth_error ss s' = Some Listening -> s' = s) ->
  List.length (filter is_listening ss) = 1.
Proof.
  intros Hs Huniq. apply (filter_length_1 _ _ s Listening Hs eq_refl).
  intros j [|] Hj; [|discriminate]. intros _. exact (Huniq j Hj).
Qed.

End Stores.

(** ** The life cycle: [start] *)

Section Start.

Import Lifecycle.

Lemma start_running (l : loop) :
  is_running l = true -> start l = Some (Ok tt, l).
Proof.
  unfold is_running, start, bind, get_self, task_done.
  destruct (_ws_server_runner_task (self l)) as [t|]; [|discriminate].
  destruct (nth_error (tasks l) t) as [st|]; [|discriminate].
  destruct (done st); [discriminate|]. reflexivity.
Qed.

Lemma start_spawns (l : loop) :
  wf l -> is_running l = false -> start l = Some (Ok tt, spawned l).
Proof.
  intros Hwf. unfold is_running, start, bind, get_self, task_done.
  destruct (_ws_server_runner_task (self l)) as [t|] eqn:Ht.
  - destruct (wf_task_handle l Hwf t Ht) as [st Hst]. rewrite Hst.
    destruct (done st); [|discriminate]. intros _. reflexivity.
  - intros _. reflexivity.
Qed.

Lemma spawned_running (l : loop) : is_running (spawned l) = true.
Proof.
  unfold is_running, spawned. cbn. now rewrite nth_error_snoc.
Qed.

Lemma not_running_task (l : loop) (t : nat) (st : task_state) :
  is_running l = false -> nth_error (tasks l) t = Some st ->
  _ws_server_runner_task (self l) = Some t -> done st = true.
Proof.
  unfold is_running. intros Hrun Hst Ht. rewrite Ht, Hst in Hrun.
  now destruct (done st).
Qed.

Lemma wf_spawned (l : loop) : wf l -> is_running l = false -> wf (spawned l).
Proof.
  intros [Htasks Hservers Hsh Hth] Hrun.
  assert (Hidle : _ws_server (self l) = None).
  { destruct (_ws_server (self l)) as [s|] eqn:Hs; [|reflexivity].
    destruct (Hsh s eq_refl) as (_ & t & Ht & Hst).
    now pose proof (not_running_task l t _ Hrun Hst Ht). }
  constructor; cbn.
  - intros t st Hst. apply nth_error_snoc_inv in Hst as [[-> ->]|[Hlt Hst]].
    + reflexivity.
    + specialize (Htasks t st Hst).
      destruct st; cbn in *; try exact Htasks.
      * now pose proof (not_running_task l t _ Hrun Hst Htasks).
      * destruct Htasks as [Ht _].
        now pose proof (not_running_task l t _ Hrun Hst Ht).
  - intros s Hs. apply Hservers in Hs. congruence.
  - intros s Hs. congruence.
  - intros t [= <-]. exists Pending. apply nth_error_snoc.
Qed.

(** Whatever the state, [start] ends normally and leaves the bridge
    running; a second [start] changes nothing. *)
Lemma start_run (l : loop) :
  wf l ->
  exists l',
    start l = Some (Ok tt, l') /\ wf l' /\ is_running l' = true /\
    start l' = Some (Ok tt, l') /\
    (is_running l = true -> l' = l) /\
    (is_running l = false -> l' = spawned l).
Proof.
  intros Hwf. destruct (is_running l) eqn:Hrun.
  - exists l.
    split; [now apply start_running|]. split; [exact Hwf|].
    split; [exact Hrun|]. split; [now apply start_running|].
    split; [reflexivity|congruence].
  - exists (spawned l).
    split; [now apply start_spawns|]. split; [now apply wf_spawned|].
    split; [apply spawned_running|].
    split; [apply start_running, spawned_running|].
    split; [congruence|reflexivity].
Qed.

End Start.

(** ** The life cycle: [stop] *)

Section Stop.

Import Lifecycle.

Lemma task_ok_light (l : loop) (t : nat) (st : task_state) :
  task_ok l t st ->
  (forall e, st <> Failed e) /\
  (done st = false -> _ws_server_runner_task (self l) = Some t).
Proof.
  destruct st; cbn; intros H; split; try discriminate; try tauto.
Qed.

(** Lines 160-163: afterwards every server is closed; no task has
    failed, and only the task the adapter holds can be unfinished. *)
Lemma stop_close_server_run (l : loop) :
  wf l ->
  exists l1,
    stop_close_server l = Some (Ok tt, l1) /\
    self l1 = self l /\
    (forall s st, nth_error (servers l1) s = Some st -> st = Closed) /\
    (forall t st, nth_error (tasks l1) t = Some st ->
       (forall e, st <> Failed e) /\
       (done st = false -> _ws_server_runner_task (self l) = Some t)) /\
    (forall t, _ws_server_runner_task (self l) = Some t ->
       exists st, nth_error (tasks l1) t = Some st).
Proof.
  intros [Htasks Hservers Hsh Hth].
  unfold stop_close_server, bind at 1, get_self.
  destruct (_ws_server (self l)) as [s|] eqn:Hs.
  - destruct (Hsh s eq_refl) as (Hlisten & t & Ht & Hst).
    unfold bind at 1. unfold server_close. rewrite Hlisten.
    unfold bind at 1. unfold server_wait_closed. cbn [servers set_servers].
    rewrite (nth_error_set_nth_eq s Closed Listening _ Hlisten).
    assert (Hclosed : forall s' st',
               nth_error (set_nth s Closed (servers l)) s' = Some st' ->
               st' = Closed).
    { intros s' st' H. apply nth_error_set_nth_inv in H as [[_ ->]|[Hne H]].
      - reflexivity.
      - destruct st'; [|reflexivity]. apply Hservers in H. congruence. }
    unfold logging. cbn [runner_resumes_first set_servers].
    destruct (runner_resumes_first l);
      (eexists; split; [reflexivity|]; cbn;
       split; [reflexivity|]; split; [exact Hclosed|]; split).
    + intros t' st' H. rewrite nth_error_map in H.
      destruct (nth_error (tasks l) t') as [st0|] eqn:H0; [|discriminate].
      injection H as <-.
      destruct (task_ok_light l t' st0 (Htasks _ _ H0)) as [Hnf Hd].
      destruct st0 as [|s0| | |e]; cbn; try (split; [discriminate|exact Hd]).
      * destruct (Nat.eqb s0 s); split; try discriminate; try exact Hd.
      * exfalso. exact (Hnf e eq_refl).
    + intros t' Ht'. destruct (Hth t' Ht') as [st' Hst'].
      rewrite nth_error_map, Hst'. cbn. eauto.
    + intros t' st' H. exact (task_ok_light l t' st' (Htasks _ _ H)).
    + exact Hth.
  - unfold ret. eexists. split; [reflexivity|].
    split; [reflexivity|]. split; [|split].
    + intros s st H. destruct st; [|reflexivity].
      apply Hservers in H. congruence.
    + intros t st H. exact (task_ok_light l t st (Htasks _ _ H)).
    + exact Hth.
Qed.

(** Lines 165-170: the runner task is cancelled and awaited; its
    [CancelledError] is caught, and it cannot have ended otherwise than
    normally or cancelled. *)
Lemma stop_cancel_runner_run (l : loop) :
  (forall t st, nth_error (tasks l) t = Some st ->
     (forall e, st <> Failed e) /\
     (done st = false -> _ws_server_runner_task (self l) = Some t)) ->
  (forall t, _ws_server_runner_task (self l) = Some t ->
     exists st, nth_error (tasks l) t = Some st) ->
  exists l2,
    stop_cancel_runner l = Some (Ok tt, l2) /\
    self l2 = self l /\ servers l2 = servers l /\
    (forall t st, nth_error (tasks l2) t = Some st ->
                  st = Finished \/ st = Cancelled).
Proof.
  intros Htasks Hth.
  assert (Hdone : forall t st, nth_error (tasks l) t = Some st ->
                    done st = true -> st = Finished \/ st = Cancelled).
  { intros t st H Hd. destruct st as [| | | |e]; try discriminate; auto.
    destruct (Htasks _ _ H) as [Hnf _]. exfalso. exact (Hnf e eq_refl). }
  unfold stop_cancel_runner, bind at 1, get_self.
  destruct (_ws_server_runner_task (self l)) as [t|] eqn:Ht.
  - destruct (Hth t eq_refl) as [st Hst].
    unfold bind at 1. unfold task_cancel. rewrite Hst.
    unfold try_except, await_task.
    destruct (done st) eqn:Hd.
    + rewrite Hst.
      assert (Hall : forall t' st', nth_error (tasks l) t' = Some st' ->
                       st' = Finished \/ st' = Cancelled).
      { intros t' st' H'. destruct (done st') eqn:Hd'.
        - exact (Hdone _ _ H' Hd').
        - destruct (Htasks _ _ H') as [_ Hh]. specialize (Hh Hd').
          injection Hh as <-. congruence. }
      destruct (Hdone _ _ Hst Hd) as [-> | ->].
      * exists l. auto.
      * unfold logging. eexists. split; [reflexivity|]. cbn. auto.
    + cbn [tasks set_tasks].
      rewrite (nth_error_set_nth_eq t Cancelled st _ Hst).
      unfold logging. eexists. split; [reflexivity|]. cbn.
      split; [reflexivity|]. split; [reflexivity|].
      intros t' st' H'. apply nth_error_set_nth_inv in H' as [[_ ->]|[Hne H']].
      * now right.
      * destruct (done st') eqn:Hd'.
        -- exact (Hdone _ _ H' Hd').
        -- destruct (Htasks _ _ H') as [_ Hh]. specialize (Hh Hd').
           congruence.
  - unfold ret. exists l. split; [reflexivity|].
    split; [reflexivity|]. split; [reflexivity|].
    intros t st H. destruct (done st) eqn:Hd.
    + exact (Hdone _ _ H Hd).
    + destruct (Htasks _ _ H) as [_ Hh]. specialize (Hh Hd). discriminate.
Qed.

Lemma quiescent_idle_wf (l : loop) :
  quiescent l -> is_idle l = true -> wf l.
Proof.
  intros [Ht Hs]. unfold is_idle.
  destruct (_ws_server (self l)) eqn:Hsrv; [discriminate|].
  destruct (_ws_server_runner_task (self l)) eqn:Htask; [discriminate|].
  intros _. constructor.
  - intros t st H. destruct (Ht _ _ H) as [-> | ->]; exact I.
  - intros s H. apply Hs in H. discriminate.
  - intros s H. congruence.
  - intros t H. congruence.
Qed.

(** Whatever the state, [stop] ends normally and leaves the bridge idle
    with nothing running. *)
Lemma stop_run (l : loop) :
  wf l ->
  exists l',
    stop l = Some (Ok tt, l') /\ is_idle l' = true /\ quiescent l' /\ wf l'.
Proof.
  intros Hwf.
  destruct (stop_close_server_run l Hwf) as (l1 & H1 & Hself1 & Hs1 & Ht1 & Hh1).
  rewrite <- Hself1 in Ht1, Hh1.
  destruct (stop_cancel_runner_run l1 Ht1 Hh1) as (l2 & H2 & Hself2 & Hs2 & Ht2).
  unfold stop. unfold bind at 1. rewrite H1. unfold bind at 1. rewrite H2.
  unfold stop_clear_handles, bind, get_self, put_self, logging. cbn.
  eexists. split; [reflexivity|].
  assert (Hq : quiescent
                 (mkLoop (set__ws_server_runner_task None
                            (set__ws_server None (self l2)))
                         (tasks l2) (servers l2) (runner_resumes_first l2)
                         (log l2 ++ [(Session.INFO,
                                      "Server resources cleaned up."%string)]))).
  { split; cbn; [exact Ht2|]. rewrite Hs2. exact Hs1. }
  split; [reflexivity|]. split; [exact Hq|].
  apply quiescent_idle_wf; [exact Hq|reflexivity].
Qed.

End Stop.

(** ** The life cycle: the invariant holds in every reachable state *)

Section Invariant.

Import Lifecycle.

Lemma wf_boot (a : adapter) (x : bool) :
  _ws_server a = None -> _ws_server_runner_task a = None -> wf (boot a x).
Proof.
  intros Hs Ht. constructor; cbn.
  - intros [|t] st H; discriminate.
  - intros [|s] H; discriminate.
  - intros s H. congruence.
  - intros t H. congruence.
Qed.

Lemma wf_schedule (l : loop) (x : bool) :
  wf l -> wf (set_runner_resumes_first x l).
Proof. intros [H1 H2 H3 H4]. constructor; assumption. Qed.

(** A pending runner that ends without serving. *)
Lemma wf_runner_ends (l : loop) (t : nat) (st : task_state)
    (lg : list (Session.level * string)) :
  wf l -> nth_error (tasks l) t = Some Pending ->
  st = Finished \/ st = Cancelled ->
  wf (mkLoop (self l) (set_nth t st (tasks l)) (servers l)
             (runner_resumes_first l) lg).
Proof.
  intros [Htasks Hservers Hsh Hth] Hp Hst.
  assert (Ht : _ws_server_runner_task (self l) = Some t) by exact (Htasks _ _ Hp).
  constructor; cbn.
  - intros t' st' H. apply nth_error_set_nth_inv in H as [[-> ->]|[Hne H]].
    + destruct Hst as [-> | ->]; exact I.
    + exact (Htasks _ _ H).
  - exact Hservers.
  - intros s Hs. destruct (Hsh s Hs) as (_ & t' & Ht' & Hserving).
    exfalso. congruence.
  - intros t' Ht'. assert (t' = t) as -> by congruence.
    exists st. exact (nth_error_set_nth_eq t st Pending _ Hp).
Qed.

(** A pending runner that binds its endpoint and waits on it. *)
Lemma wf_runner_serves (l : loop) (t : nat)
    (lg : list (Session.level * string)) :
  wf l -> nth_error (tasks l) t = Some Pending ->
  wf (mkLoop (set__ws_server (Some (List.length (servers l))) (self l))
             (set_nth t (Serving (List.length (servers l))) (tasks l))
             (servers l ++ [Listening]) (runner_resumes_first l) lg).
Proof.
  intros [Htasks Hservers Hsh Hth] Hp.
  assert (Ht : _ws_server_runner_task (self l) = Some t) by exact (Htasks _ _ Hp).
  assert (Hnone : _ws_server (self l) = None).
  { destruct (_ws_server (self l)) as [s|] eqn:Hs; [|reflexivity].
    destruct (Hsh s eq_refl) as (_ & t' & Ht' & Hserving). congruence. }
  constructor; cbn.
  - intros t' st' H. apply nth_error_set_nth_inv in H as [[-> ->]|[Hne H]].
    + cbn. auto.
    + specialize (Htasks _ _ H).
      destruct st'; cbn in *; try exact Htasks; exfalso.
      destruct Htasks; congruence.
  - intros s H. apply nth_error_snoc_inv in H as [[-> _]|[_ H]].
    + reflexivity.
    + apply Hservers in H. congruence.
  - intros s [= <-]. split; [apply nth_error_snoc|].
    exists t. split; [exact Ht|].
    exact (nth_error_set_nth_eq t _ Pending _ Hp).
  - intros t' Ht'. assert (t' = t) as -> by congruence.
    eexists. exact (nth_error_set_nth_eq t _ Pending _ Hp).
Qed.

Lemma wf_run_task (l : loop) (t : nat) (bind : option exn) :
  wf l -> wf (run_task t bind l).
Proof.
  intros Hwf. unfold run_task.
  destruct (nth_error (tasks l) t) as [[|s| | |e]|] eqn:Hst; try exact Hwf.
  - unfold _ws_server_runner, try_except, Effects.bind, websockets_serve,
      get_self, put_self, logging, ret.
    destruct bind as [e|].
    + destruct e; cbn; apply (wf_runner_ends l t); auto.
    + cbn. now apply (wf_runner_serves l t).
  - pose proof (wf_tasks l Hwf _ _ Hst) as [_ Hs].
    destruct (wf_server_handle l Hwf s Hs) as [Hl _]. rewrite Hl. exact Hwf.
Qed.

(** Every reachable state satisfies the invariant. *)
Lemma reachable_wf (l : loop) : reachable l -> wf l.
Proof.
  induction 1 as [a x Hs Ht | l l' r _ IH Hstart | l l' r _ IH Hstop
                 | l t bind _ IH | l x _ IH].
  - now apply wf_boot.
  - destruct (start_run l IH) as (l1 & H1 & Hwf1 & _).
    rewrite H1 in Hstart. now injection Hstart as _ <-.
  - destruct (stop_run l IH) as (l1 & H1 & _ & _ & Hwf1).
    rewrite H1 in Hstop. now injection Hstop as _ <-.
  - now apply wf_run_task.
  - now apply wf_schedule.
Qed.

(** At most one endpoint listens. *)
Lemma listening_le_1 (l : loop) : wf l -> listening l <= 1.
Proof.
  intros Hwf. unfold listening.
  destruct (_ws_server (self l)) as [s|] eqn:Hs.
  - destruct (wf_server_handle l Hwf s Hs) as [Hl _].
    rewrite (one_listening (servers l) s Hl); [lia|].
    intros s' H'. apply (wf_servers l Hwf) in H'. congruence.
  - rewrite no_listening; [lia|].
    intros s H. apply (wf_servers l Hwf) in H. congruence.
Qed.

(** Once the runner of a running bridge has had its turn with an endpoint
    that binds, exactly one endpoint listens. *)
Lemma running_one_endpoint (l : loop) (t : nat) :
  wf l -> is_running l = true ->
  _ws_server_runner_task (self l) = Some t ->
  listening (run_task t None l) = 1.
Proof.
  intros Hwf Hrun Ht. unfold is_running in Hrun. rewrite Ht in Hrun.
  unfold run_task.
  destruct (nth_error (tasks l) t) as [[|s| | |e]|] eqn:Hst; try discriminate.
  - assert (Hnone : _ws_server (self l) = None).
    { destruct (_ws_server (self l)) as [s|] eqn:Hs; [|reflexivity].
      destruct (wf_server_handle l Hwf s Hs) as (_ & t' & Ht' & Hserving).
      congruence. }
    cbn. unfold listening. cbn.
    apply (one_listening _ (List.length (servers l))).
    + apply nth_error_snoc.
    + intros s' H'. apply nth_error_snoc_inv in H' as [[-> _]|[_ H']].
      * reflexivity.
      * apply (wf_servers l Hwf) in H'. congruence.
  - pose proof (wf_tasks l Hwf _ _ Hst) as [_ Hs].
    destruct (wf_server_handle l Hwf s Hs) as [Hl _]. rewrite Hl.
    unfold listening. apply (one_listening _ s Hl).
    intros s' H'. apply (wf_servers l Hwf) in H'. congruence.
Qed.

End Invariant.

(** ** The life cycle: the properties claimed *)

Section LifecycleProperties.

Import Lifecycle.

Lemma running_one_task (l : loop) :
  wf l -> is_running l = true -> live_tasks l = 1.
Proof.
  intros Hwf Hrun. unfold is_running in Hrun.
  destruct (_ws_server_runner_task (self l)) as [t|] eqn:Ht; [|discriminate].
  destruct (nth_error (tasks l) t) as [st|] eqn:Hst; [|discriminate].
  unfold live_tasks. apply (filter_length_1 _ _ t st Hst Hrun).
  intros j y Hj Hy. pose proof (wf_tasks l Hwf _ _ Hj) as Hok.
  destruct y; cbn in *; try discriminate; [|destruct Hok]; congruence.
Qed.

Lemma quiescent_nothing_runs (l : loop) :
  quiescent l -> listening l = 0 /\ live_tasks l = 0.
Proof.
  intros [Ht Hs]. split.
  - apply filter_length_0. intros j y Hj. now rewrite (Hs _ _ Hj).
  - apply filter_length_0. intros j y Hj.
    destruct (Ht _ _ Hj) as [-> | ->]; reflexivity.
Qed.

Lemma spawned_tasks (l : loop) :
  List.length (tasks (spawned l)) = S (List.length (tasks l)).
Proof. unfold spawned. cbn. rewrite length_app. simpl. lia. Qed.

(** C3 -- Idempotent start.  In every state the bridge can reach:
    [start()] on a Running bridge (a runner task exists and is not
    finished) changes nothing at all -- no task is created, no endpoint
    is bound; and [start()] called twice in a row leaves what one call
    leaves: a Running bridge with a single unfinished runner task, at
    most one more task than before, at most one listening endpoint, and
    exactly one once that runner has bound its endpoint. *)
Theorem start_idempotent (l : loop) :
  reachable l ->
  (is_running l = true -> start l = Some (Ok tt, l)) /\
  exists l1,
    start l = Some (Ok tt, l1) /\
    start l1 = Some (Ok tt, l1) /\
    is_running l1 = true /\
    live_tasks l1 = 1 /\
    List.length (tasks l1) <= S (List.length (tasks l)) /\
    listening l1 <= 1 /\
    (forall t, _ws_server_runner_task (self l1) = Some t ->
               listening (run_task t None l1) = 1).
Proof.
  intros Hreach. apply reachable_wf in Hreach as Hwf.
  split; [apply start_running|].
  destruct (start_run l Hwf) as (l1 & H1 & Hwf1 & Hrun1 & H2 & Hsame & Hnew).
  exists l1. split; [exact H1|]. split; [exact H2|]. split; [exact Hrun1|].
  split; [now apply running_one_task|].
  split.
  { destruct (is_running l) eqn:Hrun.
    - rewrite (Hsame eq_refl). lia.
    - rewrite (Hnew eq_refl), spawned_tasks. lia. }
  split; [now apply listening_le_1|].
  intros t Ht. now apply running_one_endpoint.
Qed.

Lemma started_bridge_reachable : reachable started_bridge.
Proof.
  apply (reach_start (boot Session.test_adapter true) started_bridge (Ok tt)).
  - apply reach_boot; reflexivity.
  - reflexivity.
Defined.

Lemma start_idempotent_witness :
  reachable started_bridge /\
  is_running started_bridge = true /\
  start started_bridge = Some (Ok tt, started_bridge) /\
  listening (run_task 0 None started_bridge) = 1.
Proof.
  split; [exact started_bridge_reachable|]. split; [reflexivity|].
  destruct (start_idempotent started_bridge started_bridge_reachable)
    as (Hnoop & l1 & H1 & _ & _ & _ & _ & _ & Hone).
  split; [exact (Hnoop eq_refl)|].
  rewrite (Hnoop eq_refl) in H1. injection H1 as <-.
  exact (Hone 0 eq_refl).
Defined.

(** C4 -- Idempotent stop.  In every state the bridge can reach,
    [stop()] ends without raising and leaves both handles [None] (the
    bridge is Idle), with no runner task unfinished; a second [stop()]
    right after it ends without raising too and again leaves the bridge
    Idle. *)
Theorem stop_idempotent (l : loop) :
  reachable l ->
  exists l1 l2,
    stop l = Some (Ok tt, l1) /\
    _ws_server (self l1) = None /\ _ws_server_runner_task (self l1) = None /\
    live_tasks l1 = 0 /\
    stop l1 = Some (Ok tt, l2) /\
    _ws_server (self l2) = None /\ _ws_server_runner_task (self l2) = None.
Proof.
  intros Hreach. apply reachable_wf in Hreach as Hwf.
  destruct (stop_run l Hwf) as (l1 & H1 & Hidle1 & Hq1 & Hwf1).
  destruct (stop_run l1 Hwf1) as (l2 & H2 & Hidle2 & _ & _).
  destruct (quiescent_nothing_runs l1 Hq1) as [Hl Ht].
  unfold is_idle in Hidle1, Hidle2.
  destruct (_ws_server (self l1)) eqn:Es1; [discriminate|].
  destruct (_ws_server_runner_task (self l1)) eqn:Et1; [discriminate|].
  destruct (_ws_server (self l2)) eqn:Es2; [discriminate|].
  destruct (_ws_server_runner_task (self l2)) eqn:Et2; [discriminate|].
  exists l1, l2. repeat split; assumption.
Qed.

Lemma serving_bridge_reachable : reachable serving_bridge.
Proof. apply reach_run. exact started_bridge_reachable. Defined.

Lemma stop_idempotent_witness :
  reachable serving_bridge /\
  is_running serving_bridge = true /\
  exists l1 l2,
    stop serving_bridge = Some (Ok tt, l1) /\
    is_idle l1 = true /\ live_tasks l1 = 0 /\
    stop l1 = Some (Ok tt, l2) /\ is_idle l2 = true.
Proof.
  split; [exact serving_bridge_reachable|]. split; [reflexivity|].
  destruct (stop_idempotent serving_bridge serving_bridge_reachable)
    as (l1 & l2 & H1 & Hs1 & Ht1 & Hl1 & H2 & Hs2 & Ht2).
  exists l1, l2. unfold is_idle. rewrite Hs1, Ht1, Hs2, Ht2. auto.
Defined.

End LifecycleProperties.

(** ** The framer inside [_forward_tcp_to_ws] *)

Section ForwarderFrames.

Import Session.

(** Decoding does not depend on how the stream is cut into reads:
    decoding a first part, then the retained bytes followed by the next
    part, yields the frames of the whole. *)
Lemma decode_app (x y : bytes) :
  decode (x ++ y) =
  (fst (decode x) ++ fst (decode (snd (decode x) ++ y)),
   snd (decode (snd (decode x) ++ y))).
Proof.
  induction x as [s Hs | f r Hf IH] using buffer_ind.
  - rewrite (decode_no_delimiter _ Hs). cbn [fst snd app].
    now destruct (decode (s ++ y)).
  - rewrite <- !app_assoc, (decode_first_frame _ _ Hf), IH.
    rewrite (decode_first_frame _ _ Hf). reflexivity.
Qed.

Lemma sent_messages_app (t1 t2 : list event) :
  sent_messages (t1 ++ t2) = sent_messages t1 ++ sent_messages t2.
Proof.
  induction t1 as [|e t1 IH]; [reflexivity|].
  destruct e; simpl; rewrite IH; reflexivity.
Qed.

(** While the sends succeed, the inner loop sends the frames [decode]
    yields, in order, and leaves the bytes [decode] retains. *)
Lemma send_frames_decode (fuel : nat) :
  forall buffer w,
    List.length buffer <= fuel -> sends w = [] ->
    exists w',
      send_frames fuel buffer w = Some (Ok (snd (decode buffer)), w') /\
      sent_messages (trace w') =
        sent_messages (trace w) ++ fst (decode buffer) /\
      sends w' = [] /\ reads w' = reads w.
Proof.
  induction fuel as [|fuel IH]; intros buffer w Hlen Hsends.
  - destruct buffer; [|simpl in Hlen; lia].
    exists w. cbn. rewrite app_nil_r. auto.
  - destruct (bytes_in CRLF buffer) eqn:Hin.
    + destruct (bytes_in_crlf_split _ Hin) as (f & r & -> & Hf).
      rewrite (send_frames_step _ _ _ Hf), (decode_first_frame _ _ Hf).
      unfold bind at 1. unfold logging_info_repr.
      unfold bind at 1. unfold try_except.
      unfold bind at 1. unfold websocket_send. cbn [sends record].
      rewrite Hsends. unfold ret at 1.
      match goal with
      | |- exists w', send_frames fuel r ?w1 = _ /\ _ =>
          destruct (IH r w1) as (w' & Hrun & Hsent & Hs & Hr)
      end.
      { rewrite !length_app in Hlen. simpl in Hlen. lia. }
      { exact Hsends. }
      exists w'. split; [exact Hrun|]. split; [|split; assumption].
      rewrite Hsent. cbn [trace record fst].
      rewrite !sent_messages_app. cbn [sent_messages].
      rewrite !app_nil_r, <- app_assoc. reflexivity.
    + rewrite (send_frames_stop _ _ Hin), (decode_no_delimiter _ Hin).
      exists w. cbn. rewrite app_nil_r. auto.
Qed.

Lemma read_loop_frames (self : adapter) (chunks : list bytes) :
  forall fuel buffer w,
    reads w = map Ok chunks -> Forall (fun c => c <> []) chunks ->
    sends w = [] -> bytes_in CRLF buffer = false ->
    List.length chunks < fuel ->
    exists w',
      read_loop self fuel buffer w = Some (Ok tt, w') /\
      sent_messages (trace w') =
        sent_messages (trace w) ++ fst (decode (buffer ++ concat chunks)).
Proof.
  induction chunks as [|c cs IH]; intros fuel buffer w Hreads Hne Hsends Hbuf Hlen;
    (destruct fuel as [|fuel]; [simpl in Hlen; lia|]);
    rewrite read_loop_unfold; unfold bind at 1; unfold reader_read;
    rewrite Hreads; cbn [map].
  - unfold logging_info. eexists. split; [reflexivity|].
    cbn [trace record concat]. rewrite !sent_messages_app, !app_nil_r.
    rewrite (decode_no_delimiter _ Hbuf). cbn. now rewrite app_nil_r.
  - inversion Hne as [|? ? Hc Hcs]; subst.
    destruct c as [|c0 c]; [congruence|].
    unfold bind at 1.
    destruct (send_frames_decode (List.length (buffer ++ c0 :: c))
                (buffer ++ c0 :: c)
                (set_reads (map Ok cs)
                   (record (ReaderRead (buffer_size self)) w)) (le_n _) Hsends)
      as (w1 & Hrun & Hsent & Hs1 & Hr1).
    rewrite Hrun.
    destruct (IH fuel (snd (decode (buffer ++ c0 :: c))) w1)
      as (w' & Hloop & Hsent'); try assumption.
    { apply decode_rest_no_delimiter. }
    { simpl in Hlen. lia. }
    exists w'. split; [exact Hloop|].
    rewrite Hsent', Hsent. cbn [trace record set_reads concat].
    rewrite sent_messages_app. cbn [sent_messages].
    rewrite app_nil_r, (app_assoc buffer (c0 :: c) (concat cs)).
    rewrite (decode_app (buffer ++ c0 :: c)). cbn [fst].
    now rewrite <- app_assoc.
Qed.

(** With a client that accepts every send, [_forward_tcp_to_ws] sends
    exactly the frames of the byte stream it read, however the stream
    was cut into reads; a partial frame at its end is not sent. *)
Lemma _forward_tcp_to_ws_frames (self : adapter) (w : world)
    (chunks : list bytes) :
  reads w = map Ok chunks -> Forall (fun c => c <> []) chunks ->
  sends w = [] ->
  exists w',
    _forward_tcp_to_ws self w = Some (Ok tt, w') /\
    sent_messages (trace w') =
      sent_messages (trace w) ++ fst (decode (concat chunks)).
Proof.
  intros Hreads Hne Hsends.
  unfold _forward_tcp_to_ws, try_finally, try_except.
  unfold bind at 1. unfold logging_info at 1. unfold with_fuel.
  destruct (read_loop_frames self chunks
              (S (List.length
                    (reads (record (Log INFO "Started forwarding from TCP to WS") w))))
              [] (record (Log INFO "Started forwarding from TCP to WS") w))
    as (w1 & Hrun & Hsent); try assumption; try reflexivity.
  { cbn. rewrite Hreads, length_map. lia. }
  rewrite Hrun. unfold logging_info. eexists. split; [reflexivity|].
  cbn [trace record]. rewrite sent_messages_app, Hsent. cbn.
  rewrite !sent_messages_app. cbn. now rewrite !app_nil_r.
Qed.

(** Once a send has raised [ConnectionClosed], the inner loop is left
    but not the outer one: the forwarder returns to [reader.read], with
    the rest of the buffer kept. *)
Lemma send_frames_closed_send (fuel : nat) (f r : bytes) (w : world)
    (rest : list (option exn)) :
  bytes_in CRLF f = false -> sends w = Some ConnectionClosed :: rest ->
  send_frames (S fuel) (f ++ CRLF ++ r) w =
  Some (Ok r,
        record (Log WARNING "WebSocket client disconnected during forwarding")
          (set_sends rest
             (record (WebsocketSend f)
                (record (LogRepr INFO "TCP -> WS: " f) w)))).
Proof.
  intros Hf Hsends. rewrite (send_frames_step _ _ _ Hf).
  unfold bind at 1. unfold logging_info_repr.
  unfold bind at 1. unfold try_except.
  unfold bind at 1. unfold websocket_send, answer. cbn [sends record].
  rewrite Hsends. reflexivity.
Qed.

End ForwarderFrames.

(** ** More on the life cycle *)

Section LifecycleMore.

Import Lifecycle.

Lemma not_running_no_live_task (l : loop) :
  wf l -> is_running l = false -> live_tasks l = 0.
Proof.
  intros Hwf Hrun. unfold live_tasks. apply filter_length_0.
  intros j y Hj. destruct (done y) eqn:Hd; [reflexivity|exfalso].
  destruct (task_ok_light l j y (wf_tasks l Hwf _ _ Hj)) as [_ Hh].
  pose proof (not_running_task l j y Hrun Hj (Hh Hd)). congruence.
Qed.

(** X7 -- One runner.  In every state the bridge can reach, at most
    one runner task is unfinished, an unfinished task is the one
    [_ws_server_runner_task] refers to, and no runner task has ended
    with an exception other than its cancellation. *)
Theorem lifecycle_single_runner (l : loop) :
  reachable l ->
  live_tasks l <= 1 /\
  (forall t st, nth_error (tasks l) t = Some st -> done st = false ->
                _ws_server_runner_task (self l) = Some t) /\
  (forall t e, nth_error (tasks l) t <> Some (Failed e)).
Proof.
  intros Hreach. apply reachable_wf in Hreach as Hwf.
  split.
  { destruct (is_running l) eqn:Hrun.
    - rewrite (running_one_task l Hwf Hrun). lia.
    - rewrite (not_running_no_live_task l Hwf Hrun). lia. }
  split.
  - intros t st Hst Hd.
    exact (proj2 (task_ok_light l t st (wf_tasks l Hwf _ _ Hst)) Hd).
  - intros t e Hst.
    exact (proj1 (task_ok_light l t _ (wf_tasks l Hwf _ _ Hst)) e eq_refl).
Qed.

Lemma lifecycle_single_runner_witness :
  reachable serving_bridge /\
  live_tasks serving_bridge <= 1 /\
  _ws_server_runner_task (self serving_bridge) = Some 0.
Proof.
  split; [exact serving_bridge_reachable|].
  destruct (lifecycle_single_runner serving_bridge serving_bridge_reachable)
    as (Ht & Hh & _).
  split; [exact Ht|]. exact (Hh 0 (Serving 0) eq_refl eq_refl).
Defined.

(** X8 -- Restart.  From every reachable state, [stop()] followed by
    [start()] both end normally and leave a Running bridge whose runner
    is a task created by that [start()], not yet started, and the only
    unfinished one. *)
Theorem stop_then_start_restarts (l : loop) :
  reachable l ->
  exists l1 l2,
    stop l = Some (Ok tt, l1) /\ start l1 = Some (Ok tt, l2) /\
    is_running l2 = true /\
    _ws_server_runner_task (self l2) = Some (List.length (tasks l1)) /\
    nth_error (tasks l2) (List.length (tasks l1)) = Some Pending /\
    List.length (tasks l2) = S (List.length (tasks l1)) /\
    live_tasks l2 = 1.
Proof.
  intros Hreach. apply reachable_wf in Hreach as Hwf.
  destruct (stop_run l Hwf) as (l1 & H1 & Hidle & Hq & Hwf1).
  assert (Hrun1 : is_running l1 = false).
  { unfold is_idle in Hidle. unfold is_running.
    destruct (_ws_server (self l1)); [discriminate|].
    now destruct (_ws_server_runner_task (self l1)). }
  pose proof (wf_spawned l1 Hwf1 Hrun1) as Hwf2.
  exists l1, (spawned l1).
  split; [exact H1|]. split; [now apply start_spawns|].
  split; [apply spawned_running|]. split; [reflexivity|].
  split; [apply nth_error_snoc|]. split; [apply spawned_tasks|].
  apply running_one_task; [exact Hwf2|apply spawned_running].
Qed.

Lemma stop_then_start_restarts_witness :
  reachable serving_bridge /\
  exists l1 l2,
    stop serving_bridge = Some (Ok tt, l1) /\ start l1 = Some (Ok tt, l2) /\
    _ws_server_runner_task (self l2) = Some 1 /\
    live_tasks l2 = 1.
Proof.
  split; [exact serving_bridge_reachable|].
  destruct (stop_then_start_restarts serving_bridge serving_bridge_reachable)
    as (l1 & l2 & H1 & H2 & _ & Ht & _ & _ & Hone).
  exists l1, l2. split; [exact H1|]. split; [exact H2|].
  assert (Hlen : List.length (tasks l1) = 1).
  { vm_compute in H1. injection H1 as <-. reflexivity. }
  rewrite Hlen in Ht. split; [exact Ht|exact Hone].
Defined.

(** X9 -- Bind failure.  When the pending runner of a reachable state
    cannot bind its endpoint ([websockets.serve] raises an [Exception]),
    it logs the error and ends: the bridge is no longer Running and
    [_ws_server] is still [None]; a later [start()] spawns a new
    runner. *)
Theorem bind_failure_leaves_bridge_not_running (l : loop) (t : nat) (e : exn) :
  reachable l -> nth_error (tasks l) t = Some Pending ->
  is_Exception e = true ->
  is_running (run_task t (Some e) l) = false /\
  nth_error (tasks (run_task t (Some e) l)) t = Some Finished /\
  _ws_server (self (run_task t (Some e) l)) = None /\
  log (run_task t (Some e) l) =
    log l ++ [(Session.ERROR, "Error starting WebSocket server"%string)] /\
  start (run_task t (Some e) l) =
    Some (Ok tt, spawned (run_task t (Some e) l)).
Proof.
  intros Hreach Hp He. apply reachable_wf in Hreach as Hwf.
  pose proof (wf_run_task l t (Some e) Hwf) as Hwf'.
  assert (Ht : _ws_server_runner_task (self l) = Some t)
    by exact (wf_tasks l Hwf _ _ Hp).
  assert (Hnone : _ws_server (self l) = None).
  { destruct (_ws_server (self l)) as [s|] eqn:Hs; [|reflexivity].
    destruct (wf_server_handle l Hwf s Hs) as (_ & t' & Ht' & Hserving).
    congruence. }
  assert (Hstate : run_task t (Some e) l =
                   mkLoop (self l) (set_nth t Finished (tasks l)) (servers l)
                          (runner_resumes_first l)
                          (log l ++ [(Session.ERROR,
                                      "Error starting WebSocket server"%string)])).
  { unfold run_task. rewrite Hp.
    unfold _ws_server_runner, try_except, bind, websockets_serve.
    rewrite He. reflexivity. }
  assert (Hrun : is_running (run_task t (Some e) l) = false).
  { rewrite Hstate. unfold is_running. cbn. rewrite Ht.
    now rewrite (nth_error_set_nth_eq t Finished Pending _ Hp). }
  split; [exact Hrun|].
  split; [rewrite Hstate; cbn; exact (nth_error_set_nth_eq t _ Pending _ Hp)|].
  split; [rewrite Hstate; exact Hnone|].
  split; [rewrite Hstate; reflexivity|].
  now apply start_spawns.
Qed.

Lemma bind_failure_leaves_bridge_not_running_witness :
  reachable started_bridge /\
  nth_error (tasks started_bridge) 0 = Some Pending /\
  is_Exception (OSError "Address already in use") = true /\
  is_running
    (run_task 0 (Some (OSError "Address already in use")) started_bridge)
    = false.
Proof.
  split; [exact started_bridge_reachable|]. split; [reflexivity|].
  split; [reflexivity|].
  exact (proj1 (bind_failure_leaves_bridge_not_running started_bridge 0
                  (OSError "Address already in use")
                  started_bridge_reachable eq_refl eq_refl)).
Defined.

(** X10 -- A stopped bridge stays stopped.  After [stop()] has returned,
    no turn the event loop gives to any task changes anything: no runner
    left over from before can still bind an endpoint or set
    [_ws_server]. *)
Theorem stopped_bridge_stays_stopped (l l1 : loop) (r : outcome unit) :
  reachable l -> stop l = Some (r, l1) ->
  forall t bind, run_task t bind l1 = l1.
Proof.
  intros Hreach Hstop t bind. apply reachable_wf in Hreach as Hwf.
  destruct (stop_run l Hwf) as (l1' & H1 & _ & [Hq _] & _).
  rewrite H1 in Hstop. injection Hstop as _ <-.
  unfold run_task.
  destruct (nth_error (tasks l1') t) as [st|] eqn:Hst; [|reflexivity].
  destruct (Hq _ _ Hst) as [-> | ->]; reflexivity.
Qed.

Lemma stopped_bridge_stays_stopped_witness :
  reachable started_bridge /\
  exists l1,
    stop started_bridge = Some (Ok tt, l1) /\
    run_task 0 None l1 = l1 /\ listening l1 = 0.
Proof.
  split; [exact started_bridge_reachable|].
  eexists. split; [reflexivity|].
  split; [|reflexivity].
  exact (stopped_bridge_stays_stopped started_bridge _ (Ok tt)
           started_bridge_reachable eq_refl 0 None).
Defined.

End LifecycleMore.

Section Configuration.

Import Lifecycle.

Lemma start_same_config (l l' : loop) (r : outcome unit) :
  start l = Some (r, l') -> same_config l l'.
Proof.
  assert (Hspawn : forall l0,
            (t <- create_task ;;
             a <- get_self ;;
             put_self (set__ws_server_runner_task (Some t) a) ;;
             logging Session.INFO "Server started successfully.") l0 =
            Some (r, l') -> same_config l0 l').
  { intros l0. unfold bind, create_task, get_self, put_self, logging.
    intros [= _ <-]. reflexivity. }
  unfold start. unfold bind at 1. unfold get_self.
  destruct (_ws_server_runner_task (self l)) as [t|].
  - unfold bind at 1. unfold task_done.
    destruct (nth_error (tasks l) t) as [st|]; [|discriminate].
    destruct (done st); [apply Hspawn|].
    intros [= _ <-]. reflexivity.
  - unfold bind at 1. unfold ret at 1. apply Hspawn.
Qed.

Lemma stop_close_server_same_config (l l' : loop) (r : outcome unit) :
  stop_close_server l = Some (r, l') -> same_config l l'.
Proof.
  unfold stop_close_server. unfold bind at 1. unfold get_self.
  destruct (_ws_server (self l)) as [s|]; [|intros [= _ <-]; reflexivity].
  unfold bind, server_close, server_wait_closed, logging.
  destruct (nth_error (servers l) s) as [st|]; [|discriminate].
  cbn [servers set_servers].
  destruct (nth_error (set_nth s Closed (servers l)) s) as [[|]|];
    try discriminate.
  cbn [runner_resumes_first set_servers].
  destruct (runner_resumes_first l); intros [= _ <-]; reflexivity.
Qed.

Lemma stop_cancel_runner_same_config (l l' : loop) (r : outcome unit) :
  stop_cancel_runner l = Some (r, l') -> same_config l l'.
Proof.
  unfold stop_cancel_runner. unfold bind at 1. unfold get_self.
  destruct (_ws_server_runner_task (self l)) as [t|];
    [|intros [= _ <-]; reflexivity].
  unfold bind, task_cancel, try_except, await_task, logging.
  destruct (nth_error (tasks l) t) as [st|]; [|discriminate].
  destruct (done st).
  - destruct (nth_error (tasks l) t) as [[| | | |e]|]; try discriminate;
      try (intros [= _ <-]; reflexivity).
    destruct e; intros [= _ <-]; reflexivity.
  - cbn [tasks set_tasks].
    destruct (nth_error (set_nth t Cancelled (tasks l)) t) as [[| | | |e]|];
      try discriminate; try (intros [= _ <-]; reflexivity).
    destruct e; intros [= _ <-]; reflexivity.
Qed.

Lemma stop_clear_handles_same_config (l l' : loop) (r : outcome unit) :
  stop_clear_handles l = Some (r, l') -> same_config l l'.
Proof.
  unfold stop_clear_handles, bind, get_self, put_self, logging.
  intros H. inversion H; subst; reflexivity.
Qed.

Lemma same_config_trans (l1 l2 l3 : loop) :
  same_config l1 l2 -> same_config l2 l3 -> same_config l1 l3.
Proof. unfold same_config. congruence. Qed.

Lemma stop_same_config (l l' : loop) (r : outcome unit) :
  stop l = Some (r, l') -> same_config l l'.
Proof.
  unfold stop.
  apply (respects_bind same_config same_config_trans).
  - intros s r0 s'. apply stop_close_server_same_config.
  - intros _.
    apply (respects_bind same_config same_config_trans).
    + intros s r0 s'. apply stop_cancel_runner_same_config.
    + intros _ s r0 s'. apply stop_clear_handles_same_config.
Qed.

Lemma run_task_same_config (l : loop) (t : nat) (bind : option exn) :
  same_config l (run_task t bind l).
Proof.
  unfold run_task, _ws_server_runner, try_except, Effects.bind,
    websockets_serve, get_self, put_self, logging, ret.
  destruct (nth_error (tasks l) t) as [[|s| | |e]|]; try reflexivity.
  - destruct bind as [e|]; [|reflexivity].
    destruct (is_Exception e); reflexivity.
  - destruct (nth_error (servers l) s) as [[|]|]; reflexivity.
Qed.

(** X11 -- The configuration is never modified.  Neither [start()] nor
    [stop()] nor any turn of the runner changes [tcp_host], [tcp_port],
    [ws_host], [ws_port] or [buffer_size], whatever the state they run
    from and however they end. *)
Theorem lifecycle_keeps_configuration (l : loop) :
  (forall l1 r, start l = Some (r, l1) -> same_config l l1) /\
  (forall l1 r, stop l = Some (r, l1) -> same_config l l1) /\
  (forall t bind, same_config l (run_task t bind l)).
Proof.
  split; [|split].
  - intros l1 r. apply start_same_config.
  - intros l1 r. apply stop_same_config.
  - apply run_task_same_config.
Qed.

Lemma lifecycle_keeps_configuration_witness :
  exists l1,
    stop serving_bridge = Some (Ok tt, l1) /\
    config (self l1) = ("localhost"%string, 4242%N, "localhost"%string,
                        5050%N, 1024%N).
Proof.
  eexists. split; [reflexivity|].
  exact (proj1 (proj2 (lifecycle_keeps_configuration serving_bridge))
           _ (Ok tt) eq_refl).
Defined.

End Configuration.

(** ** More on the framer and on [_forward_tcp_to_ws] *)

Section FramesMore.

Import Session.

Lemma decode_parts (buffer : bytes) :
  buffer = concat (map Framer.encode (fst (decode buffer))) ++
           snd (decode buffer) /\
  Forall (fun f => bytes_in CRLF f = false) (fst (decode buffer)).
Proof.
  induction buffer as [s Hs | f r Hf [Heq Hfs]] using buffer_ind.
  - rewrite (decode_no_delimiter _ Hs). simpl. auto.
  - rewrite (decode_first_frame _ _ Hf). cbn [fst snd map concat]. split.
    + unfold Framer.encode at 1. rewrite <- !app_assoc. do 2 f_equal.
      exact Heq.
    + now constructor.
Qed.

(** X2 -- The framing of a byte string is unique.  [decode] yields
    [frames] and [rest] exactly when the buffer is the frames, each
    followed by CR LF, followed by [rest], and neither a frame nor
    [rest] contains CR LF: several encoded frames in one buffer, with or
    without a partial frame behind them, decode to those frames in
    order and that partial frame. *)
Theorem framing_unique (buffer : bytes) (frames : list bytes) (rest : bytes) :
  decode buffer = (frames, rest) <->
  buffer = concat (map Framer.encode frames) ++ rest /\
  Forall (fun f => bytes_in CRLF f = false) frames /\
  bytes_in CRLF rest = false.
Proof.
  split.
  - intros H. destruct (decode_parts buffer) as [Heq Hfs].
    pose proof (decode_rest_no_delimiter buffer) as Hrest.
    rewrite H in Heq, Hfs, Hrest. auto.
  - intros (-> & Hfs & Hrest). now apply decode_concat.
Qed.

Lemma framing_unique_witness :
  decode (b "A" ++ CRLF ++ b "B" ++ CRLF ++ b "par") =
  ([b "A"; b "B"], b "par").
Proof.
  apply (proj2 (framing_unique (b "A" ++ CRLF ++ b "B" ++ CRLF ++ b "par")
                  [b "A"; b "B"] (b "par"))).
  split; [reflexivity|]. split; [|reflexivity].
  repeat constructor.
Defined.

(** X1 -- Frames cross read boundaries intact.  When the bytes the TCP
    peer delivers, however they are cut into reads, are the frames
    [frames], each followed by CR LF, and then a partial frame without
    delimiter, a client that accepts every send is sent exactly
    [frames], one message each, in order; the partial frame is not sent,
    and the forwarder returns normally at end of file. *)
Theorem tcp_to_ws_sends_stream_frames (self : adapter) (w : world)
    (chunks frames : list bytes) (partial : bytes) :
  reads w = map Ok chunks -> Forall (fun c => c <> []) chunks ->
  sends w = [] ->
  concat chunks = concat (map Framer.encode frames) ++ partial ->
  Forall (fun f => bytes_in CRLF f = false) frames ->
  bytes_in CRLF partial = false ->
  exists w',
    _forward_tcp_to_ws self w = Some (Ok tt, w') /\
    sent_messages (trace w') = sent_messages (trace w) ++ frames.
Proof.
  intros Hreads Hne Hsends Hstream Hfs Hpartial.
  destruct (_forward_tcp_to_ws_frames self w chunks Hreads Hne Hsends)
    as (w' & Hrun & Hsent).
  exists w'. split; [exact Hrun|].
  rewrite Hsent, Hstream, (decode_concat frames partial Hfs Hpartial).
  reflexivity.
Qed.

Lemma tcp_to_ws_sends_stream_frames_witness :
  exists w',
    _forward_tcp_to_ws test_adapter
      (mkWorld None
         (map Ok [b "A" ++ [CR]; [LF] ++ b "B" ++ CRLF ++ b "ta"; b "il"])
         [] [] [] None false false []) = Some (Ok tt, w') /\
    sent_messages (trace w') = [b "A"; b "B"].
Proof.
  apply (tcp_to_ws_sends_stream_frames test_adapter
           (mkWorld None
              (map Ok [b "A" ++ [CR]; [LF] ++ b "B" ++ CRLF ++ b "ta"; b "il"])
              [] [] [] None false false [])
           [b "A" ++ [CR]; [LF] ++ b "B" ++ CRLF ++ b "ta"; b "il"]
           [b "A"; b "B"] (b "tail")).
  - reflexivity.
  - repeat constructor; discriminate.
  - reflexivity.
  - reflexivity.
  - repeat constructor.
  - reflexivity.
Defined.

Lemma evolves_sends_frame_log (lvl : level) (text : string) :
  sends_frame (Log lvl text).
Proof. exact I. Qed.

Lemma send_frames_sends_frames (fuel : nat) :
  forall buffer, respects (evolves sends_frame) (send_frames fuel buffer).
Proof.
  induction fuel as [|fuel IH]; intros buffer.
  - simpl. destruct (bytes_in CRLF buffer).
    + apply respects_stuck.
    + apply respects_ret, evolves_refl.
  - destruct (bytes_in CRLF buffer) eqn:Hin.
    + destruct (bytes_in_crlf_split _ Hin) as (f & r & -> & Hf).
      rewrite (send_frames_step _ _ _ Hf).
      apply respects_bind; [apply evolves_trans| |intros _].
      { apply evolves_logging_info_repr. exact I. }
      apply respects_bind; [apply evolves_trans| |intros [|]].
      * apply send_attempt_respects.
        -- apply evolves_refl.
        -- apply evolves_trans.
        -- apply evolves_websocket_send. exact Hf.
        -- apply evolves_logging_warning. exact I.
      * apply IH.
      * apply respects_ret, evolves_refl.
    + rewrite (send_frames_stop _ _ Hin). apply respects_ret, evolves_refl.
Qed.

Lemma read_loop_sends_frames (self : adapter) (fuel : nat) :
  forall buffer, respects (evolves sends_frame) (read_loop self fuel buffer).
Proof.
  induction fuel as [|fuel IH]; intros buffer.
  - apply respects_stuck.
  - rewrite read_loop_unfold.
    apply respects_bind; [apply evolves_trans| |intros [|c data]].
    + apply evolves_reader_read. exact I.
    + apply evolves_logging_info. exact I.
    + apply respects_bind; [apply evolves_trans| |intros buffer'].
      * apply send_frames_sends_frames.
      * apply IH.
Qed.

Lemma sent_messages_frames (evs : list event) :
  Forall sends_frame evs ->
  Forall (fun m => bytes_in CRLF m = false) (sent_messages evs).
Proof.
  induction 1 as [|e evs He _ IH]; [constructor|].
  destruct e; cbn; try exact IH. constructor; [exact He|exact IH].
Qed.

(** X3 -- The delimiter is never sent.  In every run of
    [_forward_tcp_to_ws], whatever the reads deliver and whether sends
    succeed or fail, no message handed to [websocket.send] contains
    CR LF. *)
Theorem tcp_to_ws_never_sends_delimiter (self : adapter) (w : world) :
  exists r w' evs,
    _forward_tcp_to_ws self w = Some (r, w') /\
    trace w' = trace w ++ evs /\
    Forall (fun m => bytes_in CRLF m = false) (sent_messages evs).
Proof.
  destruct (_forward_tcp_to_ws_total self w) as (r & w' & Hrun).
  assert (Hev : evolves sends_frame w w').
  { revert Hrun. unfold _forward_tcp_to_ws.
    apply respects_try_finally; [apply evolves_trans| |].
    - apply respects_try_except; [apply evolves_trans| |].
      + apply respects_bind; [apply evolves_trans| |intros _].
        * apply evolves_logging_info. exact I.
        * apply respects_with_fuel. intros n. apply read_loop_sends_frames.
      + intros [] m [= <-]; apply evolves_logging_warning; exact I.
    - apply evolves_logging_info. exact I. }
  destruct Hev as ((evs & Ht & Hevs) & _).
  exists r, w', evs. split; [exact Hrun|]. split; [exact Ht|].
  now apply sent_messages_frames.
Qed.

End FramesMore.

(** ** More on how the forwarders end *)

Section Outcomes.

Import Session PyStr.

(** The [except (CancelledError, ConnectionClosed)] clause of a forwarder. *)
Lemma swallow_clause (body : M world unit) (text : string)
    (w w' : world) (r : outcome unit) :
  try_except body
    (fun e =>
       match e with
       | CancelledError | ConnectionClosed => Some (logging_warning text)
       | _ => None
       end) w = Some (r, w') ->
  forall e, r = Err e -> swallowed e = false.
Proof.
  unfold try_except.
  destruct (body w) as [[[[]|e0] w1]|]; try discriminate.
  - intros [= <- _] e [=].
  - destruct e0; unfold logging_warning.
    + intros [= <- _] e [=].
    + intros [= <- _] e [=].
    + intros [= <- _] e [= <-]. reflexivity.
    + intros [= <- _] e [= <-]. reflexivity.
Qed.

Lemma tcp_to_ws_body_total (self : adapter) :
  total (try_except
           (logging_info "Started forwarding from TCP to WS" ;;
            with_fuel (fun w => S (List.length (reads w)))
                      (fun fuel => read_loop self fuel []))
           (fun e =>
              match e with
              | CancelledError | ConnectionClosed =>
                  Some (logging_warning
                          "Error during TCP to WebSocket forwarding")
              | _ => None
              end)).
Proof.
  apply total_try_except.
  - apply total_bind; [intros w; unfold logging_info; eauto|intros _].
    intros w. unfold with_fuel. apply read_loop_total. lia.
  - intros [] m [= <-]; intros w; unfold logging_warning; eauto.
Qed.

Lemma tcp_to_ws_body_evolves (self : adapter) :
  respects (evolves tcp_to_ws_event)
    (try_except
       (logging_info "Started forwarding from TCP to WS" ;;
        with_fuel (fun w => S (List.length (reads w)))
                  (fun fuel => read_loop self fuel []))
       (fun e =>
          match e with
          | CancelledError | ConnectionClosed =>
              Some (logging_warning "Error during TCP to WebSocket forwarding")
          | _ => None
          end)).
Proof.
  apply respects_try_except; [apply evolves_trans| |].
  - apply respects_bind; [apply evolves_trans| |intros _].
    + now apply evolves_logging_info.
    + apply respects_with_fuel. intros n. apply read_loop_evolves.
  - intros [] m [= <-]; now apply evolves_logging_warning.
Qed.

(** X4 -- How [_forward_tcp_to_ws] ends.  Every run ends, and its last
    call is the log "TCP connection handler exited".  It never raises
    [CancelledError] or [ConnectionClosed]: these are swallowed and the
    forwarder returns normally.  Any other exception of a read is not
    caught: when the first read raises [e], the forwarder returns
    normally if [e] is one of the two, and raises [e] otherwise. *)
Theorem tcp_to_ws_outcome (self : adapter) (w : world) :
  exists r w' evs,
    _forward_tcp_to_ws self w = Some (r, w') /\
    trace w' = trace w ++ evs ++ [Log INFO "TCP connection handler exited"] /\
    (forall e, r = Err e -> swallowed e = false) /\
    (forall e rest, reads w = Err e :: rest ->
                    r = if swallowed e then Ok tt else Err e).
Proof.
  destruct (tcp_to_ws_body_total self w) as (rb & w1 & Hb).
  pose proof (swallow_clause _ _ _ _ _ Hb) as Hsw.
  pose proof (tcp_to_ws_body_evolves self w rb w1 Hb) as ((evs & Ht & _) & _).
  exists rb, (record (Log INFO "TCP connection handler exited") w1), evs.
  split; [|split; [|split]].
  - unfold _forward_tcp_to_ws, try_finally. rewrite Hb. reflexivity.
  - cbn [trace record]. now rewrite Ht, <- app_assoc.
  - exact Hsw.
  - intros e rest Hreads. revert Hb.
    unfold try_except. unfold bind at 1. unfold logging_info at 1.
    unfold with_fuel. rewrite read_loop_unfold. unfold bind at 1.
    unfold reader_read. cbn [reads record]. rewrite Hreads.
    destruct e; unfold logging_warning; cbn [swallowed];
      intros [= <- _]; reflexivity.
Qed.

Lemma tcp_to_ws_outcome_witness :
  exists w',
    _forward_tcp_to_ws test_adapter
      (mkWorld None [Err (OSError "Connection reset by peer")] [] [] []
               None false false []) =
    Some (Err (OSError "Connection reset by peer"), w').
Proof.
  destruct (tcp_to_ws_outcome test_adapter
              (mkWorld None [Err (OSError "Connection reset by peer")] [] [] []
                       None false false []))
    as (r & w' & evs & Hrun & _ & _ & Hfirst).
  exists w'. rewrite Hrun.
  now rewrite (Hfirst (OSError "Connection reset by peer") [] eq_refl).
Defined.

(** X5 -- How [_forward_ws_to_tcp] ends.  Every run ends.  When
    [writer.wait_closed()] raises, the forwarder raises that exception,
    whatever happened before it; when it does not, the forwarder never
    raises [CancelledError] or [ConnectionClosed]: a cancellation or a
    closed channel in its loop makes it return normally. *)
Theorem ws_to_tcp_outcome (self : adapter) (w : world) :
  exists r w',
    _forward_ws_to_tcp self w = Some (r, w') /\
    (forall e, wait_closed w = Some e -> r = Err e) /\
    (wait_closed w = None -> forall e, r = Err e -> swallowed e = false).
Proof.
  unfold _forward_ws_to_tcp, try_finally.
  destruct (ws_to_tcp_body_total w) as (rb & w1 & Hb). rewrite Hb.
  pose proof (swallow_clause _ _ _ _ _ Hb) as Hsw.
  apply ws_to_tcp_body_evolves in Hb. destruct Hb as (_ & _ & Hwc & _).
  destruct (closing_run w1) as (w2 & Hc & _). fold closing. rewrite Hc, Hwc.
  destruct (wait_closed w) as [e|].
  - exists (Err e), w2. split; [reflexivity|].
    split; [intros e' [= <-]; reflexivity|discriminate].
  - exists rb, w2. split; [reflexivity|].
    split; [discriminate|]. intros _. exact Hsw.
Qed.

Lemma ws_to_tcp_outcome_witness :
  exists w',
    _forward_ws_to_tcp test_adapter
      (mkWorld None [] [] [Err CancelledError] [] (Some (OSError "Broken pipe"))
               false false []) = Some (Err (OSError "Broken pipe"), w').
Proof.
  destruct (ws_to_tcp_outcome test_adapter
              (mkWorld None [] [] [Err CancelledError] []
                       (Some (OSError "Broken pipe")) false false []))
    as (r & w' & Hrun & Hmask & _).
  exists w'. rewrite Hrun. now rewrite (Hmask (OSError "Broken pipe") eq_refl).
Defined.

Lemma receive_loop_failed_drain (before : list ws_message) :
  forall fuel w m after e ds,
    incoming w = map Ok (before ++ m :: after) ->
    drains w = map (fun _ => None) before ++ Some e :: ds ->
    Forall (fun m => well_formed m = true) before ->
    well_formed m = true ->
    List.length before < fuel ->
    exists w',
      receive_loop fuel w = Some (Err e, w') /\
      written (trace w') =
        written (trace w) ++
        map (fun m => payload m ++ CRLF) (before ++ [m]) /\
      incoming w' = map Ok after /\
      wait_closed w' = wait_closed w.
Proof.
  assert (Hpay : forall m w1, well_formed m = true ->
             match m with
             | Text s => lift (PyStr.encode s)
             | Binary data => ret data
             end w1 = Some (Ok (payload m), w1)).
  { intros [s|data] w1 Hm; [|reflexivity].
    unfold lift. cbn [payload]. now rewrite (encode_well_formed _ Hm). }
  induction before as [|m0 ms IH]; intros fuel w m after e ds Hin Hdr Hwf Hm Hlen;
    (destruct fuel as [|fuel]; [simpl in Hlen; lia|]);
    rewrite receive_loop_unfold; unfold bind at 1; unfold websocket_next;
    rewrite Hin; cbn [map app].
  - unfold bind at 1. rewrite (Hpay m _ Hm).
    unfold bind at 1. unfold logging_info_repr.
    unfold bind at 1. unfold writer_write.
    unfold bind at 1. unfold writer_drain, answer.
    cbn [drains record set_incoming]. rewrite Hdr. cbn [map app].
    eexists. split; [reflexivity|].
    cbn [trace record set_incoming set_drains incoming wait_closed].
    rewrite !written_app. cbn [written]. rewrite !app_nil_r.
    auto.
  - inversion Hwf as [|? ? Hm0 Hms]; subst.
    unfold bind at 1. rewrite (Hpay m0 _ Hm0).
    unfold bind at 1. unfold logging_info_repr.
    unfold bind at 1. unfold writer_write.
    unfold bind at 1. unfold writer_drain, answer.
    cbn [drains record set_incoming]. rewrite Hdr. cbn [map app].
    match goal with
    | |- exists w', receive_loop fuel ?w2 = _ /\ _ =>
        destruct (IH fuel w2 m after e ds)
          as (w' & Hrun & Hw & Hi & Hwc)
    end; try assumption; try reflexivity.
    { simpl in Hlen. lia. }
    exists w'. split; [exact Hrun|]. rewrite Hw, Hi, Hwc.
    cbn [trace record set_incoming set_drains wait_closed].
    rewrite !written_app. cbn [written]. rewrite !app_nil_r, <- !app_assoc.
    auto.
Qed.

(** X6 -- A failed drain ends the forwarding.  When the drains after the
    first messages succeed and the drain after the next message [m]
    raises [e], [_forward_ws_to_tcp] has written those messages and
    [m], each followed by CR LF, and writes nothing more: the messages
    behind [m] are not even taken from the WebSocket.  It then closes
    the writer and, if that succeeds, returns normally when [e] is
    [CancelledError] or [ConnectionClosed] and raises [e] otherwise. *)
Theorem ws_to_tcp_stops_at_failed_drain (self : adapter) (w : world)
    (before after : list ws_message) (m : ws_message) (e : exn)
    (ds : list (option exn)) :
  incoming w = map Ok (before ++ m :: after) ->
  drains w = map (fun _ => None) before ++ Some e :: ds ->
  Forall (fun m => well_formed m = true) before ->
  well_formed m = true ->
  exists r w',
    _forward_ws_to_tcp self w = Some (r, w') /\
    written (trace w') =
      written (trace w) ++ map (fun m => payload m ++ CRLF) (before ++ [m]) /\
    incoming w' = map Ok after /\
    (exists evs, trace w' = evs ++ [WriterClose; WriterWaitClosed]) /\
    (wait_closed w = None -> r = if swallowed e then Ok tt else Err e).
Proof.
  intros Hin Hdr Hwf Hm.
  unfold _forward_ws_to_tcp, try_finally, try_except.
  unfold bind at 1. unfold logging_info at 1. unfold with_fuel.
  set (w1 := record (Log INFO "Started forwarding from WS to TCP") w).
  destruct (receive_loop_failed_drain before (S (List.length (incoming w1)))
              w1 m after e ds)
    as (w2 & Hrun & Hw & Hi & Hwc); try assumption.
  { cbn. rewrite Hin, length_map, length_app. simpl. lia. }
  rewrite Hrun.
  assert (Hw1 : written (trace w1) = written (trace w)).
  { subst w1. cbn [trace record]. rewrite written_app. cbn.
    now rewrite app_nil_r. }
  rewrite Hw1 in Hw.
  assert (Hwc1 : wait_closed w2 = wait_closed w) by (rewrite Hwc; reflexivity).
  assert (Hfinish : forall (rb : outcome unit) w3,
            written (trace w3) = written (trace w2) ->
            incoming w3 = incoming w2 -> wait_closed w3 = wait_closed w2 ->
            exists r w',
              match closing w3 with
              | Some (Ok _, s'') => Some (rb, s'')
              | Some (Err e0, s'') => Some (Err e0, s'')
              | None => None
              end = Some (r, w') /\
              written (trace w') =
                written (trace w) ++
                map (fun m => payload m ++ CRLF) (before ++ [m]) /\
              incoming w' = map Ok after /\
              (exists evs, trace w' = evs ++ [WriterClose; WriterWaitClosed]) /\
              (wait_closed w = None -> r = rb)).
  { intros rb w3 Hw3 Hi3 Hwc3.
    destruct (closing_run w3) as (w4 & Hc & Htr & Hi4 & _). rewrite Hc.
    assert (Hw4 : written (trace w4) =
                  written (trace w) ++
                  map (fun m => payload m ++ CRLF) (before ++ [m])).
    { rewrite Htr, written_app, Hw3, Hw. cbn. now rewrite app_nil_r. }
    assert (Hshape : exists evs, trace w4 = evs ++ [WriterClose; WriterWaitClosed]).
    { exists (trace w3 ++ [Log INFO "WebSocket connection handler exited"]).
      rewrite Htr, <- app_assoc. reflexivity. }
    rewrite Hwc3, Hwc1.
    destruct (wait_closed w) as [e0|].
    - exists (Err e0), w4. repeat split; try assumption; try congruence.
    - exists rb, w4. repeat split; try assumption; try congruence. }
  fold closing.
  destruct e; cbn [swallowed]; unfold logging_warning;
    apply Hfinish; try reflexivity.
  all: cbn [trace record]; rewrite written_app; cbn; now rewrite app_nil_r.
Qed.

Lemma ws_to_tcp_stops_at_failed_drain_witness :
  exists r w',
    _forward_ws_to_tcp test_adapter
      (mkWorld None [] []
         (map Ok [Text (of_ascii "one"); Text (of_ascii "two");
                  Text (of_ascii "three")])
         [None; Some (OSError "Broken pipe")] None false false []) =
      Some (r, w') /\
    written (trace w') = [b "one" ++ CRLF; b "two" ++ CRLF] /\
    incoming w' = [Ok (Text (of_ascii "three"))].
Proof.
  destruct (ws_to_tcp_stops_at_failed_drain test_adapter
              (mkWorld None [] []
                 (map Ok [Text (of_ascii "one"); Text (of_ascii "two");
                          Text (of_ascii "three")])
                 [None; Some (OSError "Broken pipe")] None false false [])
              [Text (of_ascii "one")] [Text (of_ascii "three")]
              (Text (of_ascii "two")) (OSError "Broken pipe") [])
    as (r & w' & Hrun & Hw & Hi & _); try reflexivity.
  { repeat constructor. }
  exists r, w'. split; [exact Hrun|]. split; [exact Hw|exact Hi].
Defined.

End Outcomes.

(** ** A whole session *)

Section WholeSession.

Import Session PyStr.

Lemma read_loop_respects (R : world -> world -> Prop) (self : adapter) :
  (forall w, R w w) -> (forall w1 w2 w3, R w1 w2 -> R w2 w3 -> R w1 w3) ->
  (forall n, respects R (reader_read n)) ->
  (forall text, respects R (logging_info text)) ->
  (forall m, respects R (websocket_send m)) ->
  (forall text, respects R (logging_warning text)) ->
  (forall text m, respects R (logging_info_repr text m)) ->
  forall fuel buffer, respects R (read_loop self fuel buffer).
Proof.
  intros Rr Rt Hread Hinfo Hsend Hwarn Hrepr.
  induction fuel as [|fuel IH]; intros buffer.
  - now apply respects_stuck.
  - rewrite read_loop_unfold.
    apply respects_bind; [assumption|apply Hread|intros [|c data]].
    + apply Hinfo.
    + apply respects_bind; [assumption| |intros buffer'].
      * now apply send_frames_respects.
      * apply IH.
Qed.

Lemma same_ws_side_trans (w1 w2 w3 : world) :
  same_ws_side w1 w2 -> same_ws_side w2 w3 -> same_ws_side w1 w3.
Proof. unfold same_ws_side. intros [A1 B1] [A2 B2]. split; congruence. Qed.

(** [_forward_tcp_to_ws] consumes nothing of what the WebSocket delivers
    and of what the drains answer. *)
Lemma _forward_tcp_to_ws_same_ws_side (self : adapter) :
  respects same_ws_side (_forward_tcp_to_ws self).
Proof.
  assert (Hrefl : forall w, same_ws_side w w) by (intros w; split; reflexivity).
  assert (Hinfo : forall text, respects same_ws_side (logging_info text)).
  { intros text w r w' H. run_call H. split; reflexivity. }
  assert (Hwarn : forall text, respects same_ws_side (logging_warning text)).
  { intros text w r w' H. run_call H. split; reflexivity. }
  unfold _forward_tcp_to_ws.
  apply respects_try_finally; [apply same_ws_side_trans| |apply Hinfo].
  apply respects_try_except; [apply same_ws_side_trans| |].
  - apply respects_bind; [apply same_ws_side_trans|apply Hinfo|intros _].
    apply respects_with_fuel. intros n.
    apply (read_loop_respects same_ws_side self Hrefl same_ws_side_trans).
    + intros k w r w' H. run_call H; split; reflexivity.
    + exact Hinfo.
    + intros m w r w' H. run_call H; split; reflexivity.
    + exact Hwarn.
    + intros text m w r w' H. run_call H. split; reflexivity.
  - intros [] m [= <-]; apply Hwarn.
Qed.

Lemma written_tcp_to_ws_events (evs : list event) :
  Forall tcp_to_ws_event evs -> written evs = [].
Proof.
  induction 1 as [|e evs He _ IH]; [reflexivity|].
  destruct e; cbn in *; try exact IH; contradiction.
Qed.

Lemma sent_ws_to_tcp_events (evs : list event) :
  Forall ws_to_tcp_event evs -> sent_messages evs = [].
Proof.
  induction 1 as [|e evs He _ IH]; [reflexivity|].
  destruct e; cbn in *; try exact IH; contradiction.
Qed.

(** X13 -- A session relays both directions.  With a dial that succeeds
    and transports that fail nowhere, [_handle_ws_connection] returns
    normally, and by then the client has been sent exactly the frames of
    the TCP stream, in order, and the TCP peer has been written exactly
    the payload of each WebSocket message followed by CR LF, in order. *)
Theorem session_relays_both_directions (self : adapter) (w : world)
    (chunks frames : list bytes) (partial : bytes)
    (messages : list ws_message) :
  dial w = None -> cancel_gather w = false ->
  reads w = map Ok chunks -> Forall (fun c => c <> []) chunks ->
  sends w = [] ->
  concat chunks = concat (map Framer.encode frames) ++ partial ->
  Forall (fun f => bytes_in CRLF f = false) frames ->
  bytes_in CRLF partial = false ->
  incoming w = map Ok messages -> drains w = [] ->
  wait_closed w = None ->
  Forall (fun m => well_formed m = true) messages ->
  exists w',
    _handle_ws_connection self w = Some (Ok tt, w') /\
    sent_messages (trace w') = sent_messages (trace w) ++ frames /\
    written (trace w') =
      written (trace w) ++ map (fun m => payload m ++ CRLF) messages.
Proof.
  intros Hdial Hcg Hreads Hne Hsends Hstream Hfs Hpartial Hin Hdr Hwc Hwf.
  (* the TCP-to-WS task *)
  destruct (_forward_tcp_to_ws_frames self (session_started self w) chunks)
    as (w1 & Hrun1 & Hsent1); try assumption.
  rewrite Hstream, (decode_concat frames partial Hfs Hpartial) in Hsent1.
  cbn [fst] in Hsent1.
  destruct (_forward_tcp_to_ws_same_ws_side self _ _ _ Hrun1) as [Hin1 Hdr1].
  destruct (_forward_tcp_to_ws_evolves self _ _ _ Hrun1)
    as ((evs1 & Ht1 & Hevs1) & _ & Hwc1 & Hcg1 & _).
  cbn [session_started incoming drains wait_closed cancel_gather record]
    in Hin1, Hdr1, Hwc1, Hcg1.
  (* the WS-to-TCP task *)
  destruct (_forward_ws_to_tcp_writes self w1 messages) as (r2 & w2 & Hrun2 & Hw2);
    try assumption.
  { rewrite Hin1. exact Hin. }
  { rewrite Hdr1. exact Hdr. }
  destruct (_forward_ws_to_tcp_run self w1)
    as (r2' & w2' & evs2 & Hrun2' & Ht2 & Hevs2 & _).
  rewrite Hrun2 in Hrun2'. injection Hrun2' as <- <-.
  assert (Hr2 : r2 = Ok tt /\ cancel_gather w2 = false).
  { revert Hrun2. unfold _forward_ws_to_tcp, try_finally.
    destruct (ws_to_tcp_body_total w1) as (rb & wb & Hb). rewrite Hb.
    pose proof (ws_to_tcp_body_evolves _ _ _ Hb) as (_ & _ & Hwcb & Hcgb & _).
    revert Hb. unfold try_except. unfold bind at 1. unfold logging_info at 1.
    unfold with_fuel.
    destruct (receive_loop_writes messages
                (S (List.length
                      (incoming
                         (record (Log INFO "Started forwarding from WS to TCP")
                                 w1))))
                (record (Log INFO "Started forwarding from WS to TCP") w1))
      as (wl & Hloop & _); try assumption.
    { cbn. rewrite Hin1. exact Hin. }
    { cbn. rewrite Hdr1. exact Hdr. }
    { cbn. rewrite Hin1, Hin, length_map. lia. }
    rewrite Hloop. intros [= <- <-].
    unfold bind, logging_info, writer_close, writer_wait_closed, answer.
    cbn [wait_closed record cancel_gather].
    rewrite Hwcb, Hwc1, Hwc.
    intros [= <- <-]. split; [reflexivity|].
    cbn [cancel_gather record]. rewrite Hcgb, Hcg1. exact Hcg. }
  destruct Hr2 as [-> Hcg2].
  (* the handler around them *)
  edestruct (handler_clauses
               (logging_info "New WebSocket connection established." ;;
                open_connection (tcp_host self) (tcp_port self) ;;
                create_task TcpToWs ;;
                create_task WsToTcp ;;
                gather (_forward_tcp_to_ws self) (_forward_ws_to_tcp self))
               w) as (w' & Hrun & Ht).
  { unfold bind at 1. unfold logging_info. unfold bind at 1.
    unfold open_connection, answer. cbn [dial record]. rewrite Hdial.
    unfold bind at 1. unfold create_task at 1.
    unfold bind at 1. unfold create_task at 1.
    fold (session_started self w).
    unfold gather. rewrite Hrun1, Hrun2, Hcg2. reflexivity. }
  exists w'. split; [exact Hrun|]. rewrite Ht. cbn [app].
  rewrite sent_messages_app, written_app. cbn [sent_messages written].
  rewrite !app_nil_r. split.
  - rewrite Ht2, sent_messages_app, Hsent1, sent_messages_app.
    rewrite (sent_ws_to_tcp_events evs2 Hevs2). cbn [sent_messages].
    rewrite !app_nil_r. cbn [session_started trace record].
    rewrite !sent_messages_app. cbn [sent_messages]. now rewrite !app_nil_r.
  - rewrite Hw2, Ht1, written_app, (written_tcp_to_ws_events evs1 Hevs1).
    rewrite app_nil_r. cbn [session_started trace record].
    rewrite !written_app. cbn [written]. now rewrite !app_nil_r.
Qed.

Lemma session_relays_both_directions_witness :
  exists w',
    _handle_ws_connection test_adapter
      (mkWorld None (map Ok [b "Hello from TCP" ++ CRLF]) []
               (map Ok [Text (of_ascii "Hello from WebSocket")]) []
               None false false []) = Some (Ok tt, w') /\
    sent_messages (trace w') = [b "Hello from TCP"] /\
    written (trace w') = [b "Hello from WebSocket" ++ CRLF].
Proof.
  apply (session_relays_both_directions test_adapter
           (mkWorld None (map Ok [b "Hello from TCP" ++ CRLF]) []
                    (map Ok [Text (of_ascii "Hello from WebSocket")]) []
                    None false false [])
           [b "Hello from TCP" ++ CRLF] [b "Hello from TCP"] []
           [Text (of_ascii "Hello from WebSocket")]);
    try reflexivity.
  - repeat constructor; discriminate.
  - repeat constructor.
  - repeat constructor.
Defined.

End WholeSession.

Section StopIdle.

Import Lifecycle.

(** X12 -- [stop()] on an Idle bridge.  When both handles are [None],
    [stop()] closes nothing, cancels nothing and awaits nothing: it
    returns normally and the only change is the log record "Server
    resources cleaned up." *)
Theorem stop_when_idle (l : loop) :
  is_idle l = true -> stop l = Some (Ok tt, stopped_idle l).
Proof.
  unfold is_idle. destruct l as [a ts ss x lg].
  destruct a as [th tp wh wp bs srv tsk]. cbn.
  destruct srv; [discriminate|]. destruct tsk; [discriminate|].
  intros _. reflexivity.
Qed.

Lemma stop_when_idle_witness :
  is_idle (boot Session.test_adapter true) = true /\
  stop (boot Session.test_adapter true) =
  Some (Ok tt, stopped_idle (boot Session.test_adapter true)).
Proof.
  split; [reflexivity|].
  exact (stop_when_idle (boot Session.test_adapter true) eq_refl).
Defined.

End StopIdle.
